(** * UtilsRL.data_structure.sum_tree: the [SumTree] class

    A shallow embedding of [src/UtilsRL/data_structure/sum_tree.py] and the
    properties of the priority sum tree stated in the specification.

    Modelling decisions.
    - The class is embedded twice.  The module [Float64] is the class with
      the arithmetic of the program: [self.value] is a numpy array of
      float64, here a [list float] of binary64 floats, and [-], [+=], [*] and
      [<=] are the IEEE 754 operations with their rounding, infinities and
      NaN.  The definitions outside the module are the same methods over a
      [list Q] of exact rationals, with numeric equality [Qeq]: the algorithm
      when no operation rounds.
    - The two embeddings are tied by [sim]: along a run in which every
      subtraction and addition of [update] is exact ([exact_run], a check by
      computation), the float64 tree and the rational tree hold the same
      numbers ([sim_calls]).  Statements that name [Float64] are about the
      program in float64; the others are about the algorithm in exact
      arithmetic.
    - Python integers are [Z]; [//] is [Z.div] and [%] is [Z.modulo] (both
      floor conventions agree for a positive divisor).
    - [math.ceil(math.log2 n)] is [Z.log2_up n] for [n >= 1]; for [n <= 0]
      [math.log2] raises [ValueError].
    - Exceptions are values of [exn]; a method returns [result A], and an
      object is unchanged when a method raises: [update] can only raise at its
      first read of the array, before any write ([update_raise]).
    - numpy indexing with an integer accepts [-n <= i < n] (negative indices
      count from the end) and raises [IndexError] otherwise.
    - [__str__] takes numpy's [str] of an array as a parameter.
    - The [while] loop of [update] always terminates and is defined by
      well-founded recursion.  The recursion of [_find_helper] does not
      terminate for every index (index [-1] is its own left child), so it takes
      fuel: [None] means that the recursion has not returned yet. *)

From Stdlib Require Import ZArith QArith Qminmax Lia Lqa.
From Stdlib Require String Ascii DecimalString.
From Stdlib Require Import PrimFloat.
From Stdlib Require FloatOps SpecFloat FloatAxioms.
From stdpp Require Import base list.
From Equations Require Import Equations.

Import String.StringSyntax.
Delimit Scope string_scope with string.
Local Open Scope Z_scope.

(** Decimal literals of weights are read as Python reads them: the nearest
    float64. *)
Set Warnings "-inexact-float".

(** [lia] decides goals with [//] and [%] by a constant. *)
Ltac Zify.zify_post_hook ::= Z.to_euclidean_division_equations.

(** ** Exceptions and results *)

Inductive exn : Type :=
| ValueError
| IndexError
| ZeroDivisionError.

Inductive result (A : Type) : Type :=
| Ok (a : A)
| Raise (e : exn).

Arguments Ok {A} a.
Arguments Raise {A} e.

Definition bind {A B : Type} (m : result A) (k : A -> result B) : result B :=
  match m with
  | Ok a => k a
  | Raise e => Raise e
  end.

Notation "'let*' x ':=' m 'in' k" := (bind m (fun x => k))
  (at level 10, x name, m at level 100, k at level 200).

(** ** numpy arrays of weights *)

(** [a[i]] for an integer [i] on an array of length [n]: the position read. *)
Definition np_index (n : nat) (i : Z) : result nat :=
  if (0 <=? i) && (i <? Z.of_nat n) then Ok (Z.to_nat i)
  else if (- Z.of_nat n <=? i) && (i <? 0) then Ok (Z.to_nat (Z.of_nat n + i))
  else Raise IndexError.

Definition getitem (a : list Q) (i : Z) : result Q :=
  let* k := np_index (length a) i in
  match a !! k with
  | Some x => Ok x
  | None => Raise IndexError
  end.

Definition setitem (a : list Q) (i : Z) (x : Q) : result (list Q) :=
  let* k := np_index (length a) i in
  Ok (<[k := x]> a).

(** [a[lo:hi]]: negative bounds count from the end, and both are clipped. *)
Definition clip (n : nat) (i : Z) : nat :=
  let i := if i <? 0 then i + Z.of_nat n else i in
  Z.to_nat (Z.min (Z.max i 0) (Z.of_nat n)).

Definition slice (a : list Q) (lo hi : Z) : list Q :=
  let l := clip (length a) lo in
  let h := clip (length a) hi in
  take (h - l) (drop l a).

(** [np.max]: a zero-size array has no maximum. *)
Definition np_max (a : list Q) : result Q :=
  match a with
  | [] => Raise ValueError
  | x :: xs => Ok (fold_left Qmax xs x)
  end.

(** [np.zeros((n,))] *)
Definition np_zeros (n : Z) : list Q := replicate (Z.to_nat n) 0%Q.

(** [math.ceil(math.log2(n))] *)
Definition ceil_log2 (n : Z) : result Z :=
  if n <=? 0 then Raise ValueError else Ok (Z.log2_up n).

Definition py_mod (a b : Z) : result Z :=
  if b =? 0 then Raise ZeroDivisionError else Ok (a mod b).

(** ** The class *)

Record SumTree : Type := mkSumTree {
  max_size : Z;
  tree_depth : Z;
  tree_size : Z;
  curr : Z;
  size : Z;
  value : list Q
}.

Definition set_value (self : SumTree) (v : list Q) : SumTree :=
  mkSumTree (max_size self) (tree_depth self) (tree_size self)
            (curr self) (size self) v.

Definition set_cursor (self : SumTree) (c s : Z) : SumTree :=
  mkSumTree (max_size self) (tree_depth self) (tree_size self) c s (value self).

Definition __init__ (max_size : Z) : result SumTree :=
  let* tree_depth := ceil_log2 max_size in
  let tree_size := 2 ^ (tree_depth + 1) - 1 in
  Ok (mkSumTree max_size tree_depth tree_size 0 0 (np_zeros tree_size)).

(** The loop of [update]:
    [while (idx-1) // 2 >= 0: father = (idx-1) // 2; value[father] += diff;
     idx = father]. *)
Equations? propagate (value : list Q) (diff : Q) (idx : Z) : result (list Q)
  by wf (Z.to_nat idx) lt :=
  propagate value diff idx with Z_le_dec 0 ((idx - 1) / 2) := {
    | left _ with getitem value ((idx - 1) / 2) := {
        | Ok x with setitem value ((idx - 1) / 2) (x + diff)%Q := {
            | Ok value' := propagate value' diff ((idx - 1) / 2);
            | Raise e := Raise e };
        | Raise e := Raise e };
    | right _ := Ok value }.
Proof.
  assert (1 <= idx).
  { destruct (Z_le_dec 1 idx) as [|Hn]; [assumption|].
    assert ((idx - 1) / 2 < 0) by (apply Z.div_lt_upper_bound; lia). lia. }
  assert ((idx - 1) / 2 < idx) by (apply Z.div_lt_upper_bound; lia).
  lia.
Qed.

Definition update (self : SumTree) (idx : Z) (new_value : Q) : result SumTree :=
  let idx := idx + 2 ^ tree_depth self - 1 in
  let* old := getitem (value self) idx in
  let diff := (new_value - old)%Q in
  let* v := setitem (value self) idx new_value in
  let* v' := propagate v diff idx in
  Ok (set_value self v').

Definition add (self : SumTree) (new_value : Q) : result SumTree :=
  let idx := curr self in
  let* self' := update self idx new_value in
  let* c := py_mod (curr self' + 1) (max_size self') in
  Ok (set_cursor self' c (Z.min (size self' + 1) (max_size self'))).

Fixpoint _find_helper (fuel : nat) (self : SumTree) (target : Q) (index : Z)
  : option (result (Z * Q)) :=
  match fuel with
  | O => None
  | S fuel' =>
      if 2 * index + 1 >? tree_size self - 1 then
        Some (let* x := getitem (value self) index in
              Ok (index - 2 ^ tree_depth self + 1, x))
      else
        match getitem (value self) (2 * index + 1) with
        | Raise e => Some (Raise e)
        | Ok left_value =>
            if Qle_bool target left_value
            then _find_helper fuel' self target (2 * index + 1)
            else _find_helper fuel' self (target - left_value)%Q (2 * index + 2)
        end
  end.

Definition find (fuel : nat) (self : SumTree) (target : Q) (normalize : bool)
  : option (result Z) :=
  match (if normalize
         then (let* root := getitem (value self) 0 in Ok (target * root)%Q)
         else Ok target) with
  | Raise e => Some (Raise e)
  | Ok target' =>
      match _find_helper fuel self target' 0 with
      | None => None
      | Some r => Some (let* p := r in Ok (fst p))
      end
  end.

Definition total (self : SumTree) : result Q := getitem (value self) 0.

Definition max (self : SumTree) : result Q :=
  if size self =? 0 then Ok 0%Q
  else
    let start := 2 ^ tree_depth self + 1 in
    np_max (slice (value self) start (start + size self)).

(** [range(n)] *)
Definition py_range (n : Z) : list Z := seqZ 0 n.

(** ["{}".format(i)] for an integer. *)
Definition format_int (i : Z) : String.string :=
  DecimalString.NilZero.string_of_int (Z.to_int i).

Definition tab : String.string :=
  String.String (Ascii.ascii_of_nat 9) String.EmptyString.

Definition newline : String.string :=
  String.String (Ascii.ascii_of_nat 10) String.EmptyString.

(** The rows of [__str__]: for each [i] of [range(tree_depth + 1)], the slice
    [value[2**i - 1 : 2**(i+1) - 1]]. *)
Definition str_rows (self : SumTree) : list (Z * list Q) :=
  map (fun i => (i, slice (value self) (2 ^ i - 1) (2 ^ (i + 1) - 1)))
      (py_range (tree_depth self + 1)).

(** [__str__]; [np_str] is numpy's [str] of an array, which is not part of
    this repository. *)
Definition __str__ (np_str : list Q -> String.string) (self : SumTree)
  : String.string :=
  String.concat newline
    (map (fun row =>
            String.append "depth "%string
              (String.append (format_int (fst row))
                 (String.append ":"%string
                    (String.append tab (np_str (snd row))))))
         (str_rows self)).

(** ** Sequences of calls *)

Inductive call : Type :=
| Update (slot : Z) (weight : Q)
| Append (weight : Q).

Definition do_call (self : SumTree) (c : call) : result SumTree :=
  match c with
  | Update slot weight => update self slot weight
  | Append weight => add self weight
  end.

Fixpoint do_calls (self : SumTree) (cs : list call) : result SumTree :=
  match cs with
  | [] => Ok self
  | c :: cs' => let* self' := do_call self c in do_calls self' cs'
  end.

(** A fresh tree of the given capacity, then the calls in order. *)
Definition run (capacity : Z) (cs : list call) : result SumTree :=
  let* self := __init__ capacity in do_calls self cs.

Definition appends (ws : list Q) : list call := map Append ws.

(** ** The class in float64

    The same methods with the arithmetic of the program: [self.value] is a
    numpy array of float64, so [-], [+=], [*] and [<=] are the IEEE 754
    binary64 operations (Rocq's primitive floats), with their rounding,
    infinities and NaN. *)

Module Float64.

Definition getitem (a : list float) (i : Z) : result float :=
  let* k := np_index (length a) i in
  match a !! k with
  | Some x => Ok x
  | None => Raise IndexError
  end.

Definition setitem (a : list float) (i : Z) (x : float) : result (list float) :=
  let* k := np_index (length a) i in
  Ok (<[k := x]> a).

Definition np_zeros (n : Z) : list float := replicate (Z.to_nat n) 0%float.

Record SumTree : Type := mkSumTree {
  max_size : Z;
  tree_depth : Z;
  tree_size : Z;
  curr : Z;
  size : Z;
  value : list float
}.

Definition set_value (self : SumTree) (v : list float) : SumTree :=
  mkSumTree (max_size self) (tree_depth self) (tree_size self)
            (curr self) (size self) v.

Definition set_cursor (self : SumTree) (c s : Z) : SumTree :=
  mkSumTree (max_size self) (tree_depth self) (tree_size self) c s (value self).

Definition __init__ (max_size : Z) : result SumTree :=
  let* tree_depth := ceil_log2 max_size in
  let tree_size := 2 ^ (tree_depth + 1) - 1 in
  Ok (mkSumTree max_size tree_depth tree_size 0 0 (np_zeros tree_size)).

Equations? propagate (value : list float) (diff : float) (idx : Z)
  : result (list float) by wf (Z.to_nat idx) lt :=
  propagate value diff idx with Z_le_dec 0 ((idx - 1) / 2) := {
    | left _ with getitem value ((idx - 1) / 2) := {
        | Ok x with setitem value ((idx - 1) / 2) (x + diff)%float := {
            | Ok value' := propagate value' diff ((idx - 1) / 2);
            | Raise e := Raise e };
        | Raise e := Raise e };
    | right _ := Ok value }.
Proof. lia. Qed.

Definition update (self : SumTree) (idx : Z) (new_value : float) : result SumTree :=
  let idx := idx + 2 ^ tree_depth self - 1 in
  let* old := getitem (value self) idx in
  let diff := (new_value - old)%float in
  let* v := setitem (value self) idx new_value in
  let* v' := propagate v diff idx in
  Ok (set_value self v').

Definition add (self : SumTree) (new_value : float) : result SumTree :=
  let idx := curr self in
  let* self' := update self idx new_value in
  let* c := py_mod (curr self' + 1) (max_size self') in
  Ok (set_cursor self' c (Z.min (size self' + 1) (max_size self'))).

Fixpoint _find_helper (fuel : nat) (self : SumTree) (target : float) (index : Z)
  : option (result (Z * float)) :=
  match fuel with
  | O => None
  | S fuel' =>
      if 2 * index + 1 >? tree_size self - 1 then
        Some (let* x := getitem (value self) index in
              Ok (index - 2 ^ tree_depth self + 1, x))
      else
        match getitem (value self) (2 * index + 1) with
        | Raise e => Some (Raise e)
        | Ok left_value =>
            if (target <=? left_value)%float
            then _find_helper fuel' self target (2 * index + 1)
            else _find_helper fuel' self (target - left_value)%float (2 * index + 2)
        end
  end.

Definition find (fuel : nat) (self : SumTree) (target : float) (normalize : bool)
  : option (result Z) :=
  match (if normalize
         then (let* root := getitem (value self) 0 in Ok (target * root)%float)
         else Ok target) with
  | Raise e => Some (Raise e)
  | Ok target' =>
      match _find_helper fuel self target' 0 with
      | None => None
      | Some r => Some (let* p := r in Ok (fst p))
      end
  end.

Definition total (self : SumTree) : result float := getitem (value self) 0.

Inductive call : Type :=
| Update (slot : Z) (weight : float)
| Append (weight : float).

Definition do_call (self : SumTree) (c : call) : result SumTree :=
  match c with
  | Update slot weight => update self slot weight
  | Append weight => add self weight
  end.

Fixpoint do_calls (self : SumTree) (cs : list call) : result SumTree :=
  match cs with
  | [] => Ok self
  | c :: cs' => let* self' := do_call self c in do_calls self' cs'
  end.

Definition run (capacity : Z) (cs : list call) : result SumTree :=
  let* self := __init__ capacity in do_calls self cs.

Definition appends (ws : list float) : list call := map Append ws.

End Float64.

(** ** Specification vocabulary *)

(** The weight stored at position [i] (0 where there is none). *)
Definition weight_at (v : list Q) (i : Z) : Q :=
  default 0%Q (v !! Z.to_nat i).

(** Invariant I1 on an array: every node that has two children holds their
    sum. *)
Definition sum_inv (v : list Q) : Prop :=
  forall i, 0 <= i -> 2 * i + 2 < Z.of_nat (length v) ->
    (weight_at v i == weight_at v (2 * i + 1) + weight_at v (2 * i + 2))%Q.

(** I1 with one pending correction: the children of [hole] already carry
    [diff], the node [hole] itself not yet. *)
Definition sum_inv_except (v : list Q) (hole : Z) (diff : Q) : Prop :=
  forall i, 0 <= i -> 2 * i + 2 < Z.of_nat (length v) ->
    (weight_at v i + (if i =? hole then diff else 0)
     == weight_at v (2 * i + 1) + weight_at v (2 * i + 2))%Q.

(** Pointwise numeric equality of two arrays. *)
Definition same_weights (v1 v2 : list Q) : Prop :=
  length v1 = length v2 /\ forall i, (weight_at v1 i == weight_at v2 i)%Q.

Fixpoint Qsum (l : list Q) : Q :=
  match l with
  | [] => 0%Q
  | x :: l' => (x + Qsum l')%Q
  end.

(** The leaves are the last [2^depth] entries of the array. *)
Definition leaves (self : SumTree) : list Q :=
  drop (Z.to_nat (2 ^ tree_depth self - 1)) (value self).

(** The shape [__init__] gives an object and every call keeps. *)
Record well_formed (self : SumTree) : Prop := mk_well_formed {
  wf_depth : 0 <= tree_depth self;
  wf_tree_size : tree_size self = 2 ^ (tree_depth self + 1) - 1;
  wf_length : Z.of_nat (length (value self)) = tree_size self;
  wf_capacity : 1 <= max_size self <= 2 ^ tree_depth self;
  wf_curr : 0 <= curr self < max_size self;
  wf_size : 0 <= size self <= max_size self
}.

(** Invariant I1 on an object, indexed as in the specification: the non-leaf
    indices are [0 .. 2^depth - 2]. *)
Definition sum_invariant (self : SumTree) : Prop :=
  forall i, 0 <= i < 2 ^ tree_depth self - 1 ->
    (weight_at (value self) i
     == weight_at (value self) (2 * i + 1) + weight_at (value self) (2 * i + 2))%Q.

(** Invariant I2: no stored weight is negative. *)
Definition nonneg_weights (self : SumTree) : Prop :=
  forall i, (0 <= weight_at (value self) i)%Q.

(** A valid call of the specification's contract, for a given capacity. *)
Definition valid_call (capacity : Z) (c : call) : Prop :=
  match c with
  | Update slot weight => 0 <= slot < capacity /\ (0 <= weight)%Q
  | Append weight => (0 <= weight)%Q
  end.

(** The weight of a logical slot: slot [s] is the leaf [s + 2^depth - 1]. *)
Definition leaf_weight (self : SumTree) (slot : Z) : Q :=
  weight_at (value self) (slot + 2 ^ tree_depth self - 1).

(** The invariant of the trees built by valid calls. *)
Record tree_inv (self : SumTree) : Prop := mk_tree_inv {
  ti_wf : well_formed self;
  ti_sum : sum_inv (value self);
  ti_leaves : Forall (fun x => 0 <= x)%Q (leaves self);
  ti_total : (weight_at (value self) 0 == Qsum (leaves self))%Q
}.

(** The tree of capacity 4 whose leaves hold 1, 2, 3, 4. *)
Definition tree_1234 : SumTree :=
  mkSumTree 4 2 7 0 4 [10; 3; 7; 1; 2; 3; 4]%Q.


(** The sum of the weights of the slots before slot [s]. *)
Definition prefix_sum (self : SumTree) (s : Z) : Q :=
  Qsum (take (Z.to_nat s) (leaves self)).

(** The number of [add] calls of a sequence. *)
Fixpoint count_appends (cs : list call) : Z :=
  match cs with
  | [] => 0
  | Update _ _ :: cs' => count_appends cs'
  | Append _ :: cs' => 1 + count_appends cs'
  end.

(** A call whose slot, if it names one, is a leaf of a tree of the given
    depth (padding leaves included); the weight is not constrained. *)
Definition leaf_call (depth : Z) (c : call) : Prop :=
  match c with
  | Update slot _ => 0 <= slot < 2 ^ depth
  | Append _ => True
  end.

(** I1 together with the meaning of the root, without any sign condition. *)
Record sums_inv (self : SumTree) : Prop := mk_sums_inv {
  si_wf : well_formed self;
  si_sum : sum_inv (value self);
  si_total : (weight_at (value self) 0 == Qsum (leaves self))%Q
}.

(** The weights of level [i] of the tree: the [2^i] entries from index
    [2^i - 1] on. *)
Definition level_weights (v : list Q) (i : Z) : list Q :=
  take (Z.to_nat (2 ^ i)) (drop (Z.to_nat (2 ^ i - 1)) v).

(** One line of [__str__]. *)
Definition str_line (np_str : list Q -> String.string) (i : Z) (row : list Q)
  : String.string :=
  String.append "depth "%string
    (String.append (format_int i)
       (String.append ":"%string (String.append tab (np_str row)))).

(** ** Vocabulary for the float64 class *)

(** The real number a finite float64 stands for: [(-1)^s * m * 2^e].  There
    is none for the infinities and NaN. *)
Definition real_of (x : float) : option Q :=
  match FloatOps.Prim2SF x with
  | SpecFloat.S754_zero _ => Some 0%Q
  | SpecFloat.S754_finite s m e =>
      Some (inject_Z (SpecFloat.cond_Zopp s (Z.pos m)) * 2 ^ e)%Q
  | _ => None
  end.

Definition real (x : float) : Q := default 0%Q (real_of x).

Definition finite (x : float) : Prop := is_Some (real_of x).

(** [x + y] and [x - y] computed without rounding: the operands and the float64
    result are finite and the result is the real sum or difference. *)
Definition exact_add (x y : float) : bool :=
  match real_of x, real_of y, real_of (x + y)%float with
  | Some a, Some b, Some c => Qeq_bool c (a + b)
  | _, _, _ => false
  end.

Definition exact_sub (x y : float) : bool :=
  match real_of x, real_of y, real_of (x - y)%float with
  | Some a, Some b, Some c => Qeq_bool c (a - b)
  | _, _, _ => false
  end.

(** Every [value[father] += diff] of the loop of [update] is exact. *)
Equations? exact_walk (value : list float) (diff : float) (idx : Z) : bool
  by wf (Z.to_nat idx) lt :=
  exact_walk value diff idx with Z_le_dec 0 ((idx - 1) / 2) := {
    | left _ with Float64.getitem value ((idx - 1) / 2) := {
        | Ok x with Float64.setitem value ((idx - 1) / 2) (x + diff)%float := {
            | Ok value' := exact_add x diff && exact_walk value' diff ((idx - 1) / 2);
            | Raise e := false };
        | Raise e := false };
    | right _ := true }.
Proof. lia. Qed.

(** Every subtraction and addition of [update(slot, w)] is exact. *)
Definition exact_update (self : Float64.SumTree) (slot : Z) (w : float) : bool :=
  let idx := slot + 2 ^ Float64.tree_depth self - 1 in
  match Float64.getitem (Float64.value self) idx with
  | Ok old =>
      exact_sub w old &&
      match Float64.setitem (Float64.value self) idx w with
      | Ok v => exact_walk v (w - old)%float idx
      | Raise _ => false
      end
  | Raise _ => false
  end.

Definition exact_call (self : Float64.SumTree) (c : Float64.call) : bool :=
  match c with
  | Float64.Update slot w => exact_update self slot w
  | Float64.Append w => exact_update self (Float64.curr self) w
  end.

(** The calls run without raising and without rounding. *)
Fixpoint exact_calls (self : Float64.SumTree) (cs : list Float64.call) : bool :=
  match cs with
  | [] => true
  | c :: cs' =>
      exact_call self c &&
      match Float64.do_call self c with
      | Ok self' => exact_calls self' cs'
      | Raise _ => false
      end
  end.

Definition exact_run (capacity : Z) (cs : list Float64.call) : bool :=
  match Float64.__init__ capacity with
  | Ok self => exact_calls self cs
  | Raise _ => false
  end.

(** The stored weights of a float64 tree as real numbers: the tree seen in
    the exact embedding. *)
Definition reals (self : Float64.SumTree) : SumTree :=
  mkSumTree (Float64.max_size self) (Float64.tree_depth self)
            (Float64.tree_size self) (Float64.curr self) (Float64.size self)
            (map real (Float64.value self)).

Definition real_call (c : Float64.call) : call :=
  match c with
  | Float64.Update slot w => Update slot (real w)
  | Float64.Append w => Append (real w)
  end.

(** A valid call of the specification's contract, on float64 weights. *)
Definition float_valid_call (capacity : Z) (c : Float64.call) : Prop :=
  match c with
  | Float64.Update slot w => 0 <= slot < capacity /\ (0 <=? w)%float = true
  | Float64.Append w => (0 <=? w)%float = true
  end.

Definition float_leaf_call (depth : Z) (c : Float64.call) : Prop :=
  match c with
  | Float64.Update slot _ => 0 <= slot < 2 ^ depth
  | Float64.Append _ => True
  end.

(** The float64 weight at position [i] (0 where there is none) and the
    weight of a slot. *)
Definition float_at (v : list float) (i : Z) : float :=
  default 0%float (v !! Z.to_nat i).

Definition float_leaf (self : Float64.SumTree) (slot : Z) : float :=
  float_at (Float64.value self) (slot + 2 ^ Float64.tree_depth self - 1).

(** The float64 tree of capacity 4 with the leaves 1, 2, 3, 4. *)
Definition float_tree_1234 : Float64.SumTree :=
  Float64.mkSumTree 4 2 7 0 4 [10; 3; 7; 1; 2; 3; 4]%float.

(** A float64 array and the array of rationals that stands for it. *)
Definition related (fv : list float) (qv : list Q) : Prop :=
  Forall finite fv /\ same_weights qv (map real fv).

(** Two trees, one in float64 and one in rationals, that stand for each
    other. *)
Definition sim (fself : Float64.SumTree) (qself : SumTree) : Prop :=
  max_size qself = Float64.max_size fself /\
  tree_depth qself = Float64.tree_depth fself /\
  tree_size qself = Float64.tree_size fself /\
  curr qself = Float64.curr fself /\
  size qself = Float64.size fself /\
  related (Float64.value fself) (value qself).

(** ** Array lemmas *)

Lemma np_index_in (n : nat) (i : Z) :
  0 <= i < Z.of_nat n -> np_index n i = Ok (Z.to_nat i).
Proof.
  intros H. unfold np_index.
  destruct (Z.leb_spec 0 i); [|lia].
  destruct (Z.ltb_spec i (Z.of_nat n)); [|lia]. reflexivity.
Qed.

Lemma np_index_bound (n : nat) (i : Z) (k : nat) :
  np_index n i = Ok k ->
  (k < n)%nat /\ - Z.of_nat n <= i < Z.of_nat n /\
  (0 <= i -> k = Z.to_nat i).
Proof.
  unfold np_index.
  destruct (Z.leb_spec 0 i), (Z.ltb_spec i (Z.of_nat n)),
    (Z.leb_spec (- Z.of_nat n) i), (Z.ltb_spec i 0); simpl;
    intros E; inversion E; subst; repeat split; try lia.
Qed.

Lemma np_index_exn (n : nat) (i : Z) (e : exn) :
  np_index n i = Raise e -> e = IndexError /\ (i < - Z.of_nat n \/ Z.of_nat n <= i).
Proof.
  unfold np_index.
  destruct (Z.leb_spec 0 i), (Z.ltb_spec i (Z.of_nat n)),
    (Z.leb_spec (- Z.of_nat n) i), (Z.ltb_spec i 0); simpl;
    intros E; inversion E; subst; split; try reflexivity; lia.
Qed.

Lemma getitem_in (v : list Q) (i : Z) :
  0 <= i < Z.of_nat (length v) -> getitem v i = Ok (weight_at v i).
Proof.
  intros H. unfold getitem, weight_at. rewrite np_index_in by assumption. simpl.
  destruct (v !! Z.to_nat i) eqn:E; [reflexivity|].
  apply lookup_ge_None in E. lia.
Qed.

Lemma getitem_ok_iff (v : list Q) (i : Z) :
  (exists x, getitem v i = Ok x) <-> - Z.of_nat (length v) <= i < Z.of_nat (length v).
Proof.
  unfold getitem. split.
  - intros [x E]. destruct (np_index (length v) i) as [k|e] eqn:Ek; [|discriminate].
    apply np_index_bound in Ek. lia.
  - intros H. destruct (np_index (length v) i) as [k|e] eqn:Ek.
    + apply np_index_bound in Ek as (Hk & _ & _). simpl.
      destruct (v !! k) eqn:E; [eauto|]. apply lookup_ge_None in E. lia.
    + apply np_index_exn in Ek. lia.
Qed.

Lemma getitem_exn (v : list Q) (i : Z) (e : exn) :
  getitem v i = Raise e ->
  e = IndexError /\ (i < - Z.of_nat (length v) \/ Z.of_nat (length v) <= i).
Proof.
  unfold getitem. destruct (np_index (length v) i) as [k|e'] eqn:Ek; simpl.
  - apply np_index_bound in Ek as (Hk & _ & _).
    destruct (v !! k) eqn:E; [discriminate|]. apply lookup_ge_None in E. lia.
  - intros E; inversion E; subst. eapply np_index_exn; eassumption.
Qed.

Lemma setitem_in (v : list Q) (i : Z) (x : Q) :
  0 <= i < Z.of_nat (length v) -> setitem v i x = Ok (<[Z.to_nat i := x]> v).
Proof.
  intros H. unfold setitem. rewrite np_index_in by assumption. reflexivity.
Qed.

Lemma weight_at_insert (v : list Q) (k : nat) (x : Q) (i : Z) :
  0 <= i -> (k < length v)%nat ->
  weight_at (<[k := x]> v) i = if i =? Z.of_nat k then x else weight_at v i.
Proof.
  intros Hi Hk. unfold weight_at.
  destruct (Z.eqb_spec i (Z.of_nat k)) as [->|Hne].
  - rewrite Nat2Z.id, list_lookup_insert_eq by assumption. reflexivity.
  - rewrite list_lookup_insert_ne by lia. reflexivity.
Qed.

(** ** The upward walk of [update] *)

(** One iteration of the loop, as the source writes it. *)
Lemma propagate_loop (v : list Q) (diff : Q) (idx : Z) :
  propagate v diff idx =
  if 0 <=? (idx - 1) / 2 then
    let father := (idx - 1) / 2 in
    let* x := getitem v father in
    let* v' := setitem v father (x + diff)%Q in
    propagate v' diff father
  else Ok v.
Proof.
  simp propagate.
  destruct (Z_le_dec 0 ((idx - 1) / 2)) as [H|H]; simpl.
  - destruct (Z.leb_spec 0 ((idx - 1) / 2)); [|lia].
    destruct (getitem v ((idx - 1) / 2)); simpl; [|reflexivity].
    destruct (setitem v ((idx - 1) / 2) (a + diff)%Q); reflexivity.
  - destruct (Z.leb_spec 0 ((idx - 1) / 2)); [lia|reflexivity].
Qed.

Lemma propagate_stop (v : list Q) (diff : Q) (idx : Z) :
  idx <= 0 -> propagate v diff idx = Ok v.
Proof.
  intros H. rewrite propagate_loop.
  destruct (Z.leb_spec 0 ((idx - 1) / 2)); [lia|reflexivity].
Qed.

Lemma propagate_step (v : list Q) (diff : Q) (idx : Z) :
  1 <= idx < Z.of_nat (length v) ->
  propagate v diff idx =
  propagate (<[Z.to_nat ((idx - 1) / 2) := (weight_at v ((idx - 1) / 2) + diff)%Q]> v)
            diff ((idx - 1) / 2).
Proof.
  intros H. rewrite propagate_loop.
  destruct (Z.leb_spec 0 ((idx - 1) / 2)); [|lia].
  cbv zeta. rewrite getitem_in by lia. simpl.
  rewrite setitem_in by lia. reflexivity.
Qed.

(** Induction on the index the walk starts from. *)
Lemma walk_ind (P : Z -> Prop) :
  (forall idx, (1 <= idx -> P ((idx - 1) / 2)) -> P idx) ->
  forall idx, P idx.
Proof.
  intros step idx. induction (Z.lt_wf 0 idx) as [idx _ IH].
  apply step. intros H. apply IH. lia.
Qed.

(** The walk succeeds from every position of the array, keeps its length,
    writes only to ancestors, adds [diff] to the root and closes the pending
    correction. *)
Lemma propagate_spec (diff : Q) (idx : Z) :
  forall v : list Q,
  0 <= idx < Z.of_nat (length v) ->
  exists v',
    propagate v diff idx = Ok v' /\
    length v' = length v /\
    (forall j : nat, (idx - 1) / 2 < Z.of_nat j -> v' !! j = v !! j) /\
    (1 <= idx -> (weight_at v' 0 == weight_at v 0 + diff)%Q) /\
    (sum_inv_except v ((idx - 1) / 2) diff -> sum_inv v').
Proof.
  pattern idx. apply walk_ind. clear idx. intros idx IH v Hidx.
  destruct (Z.eq_dec idx 0) as [->|Hnz].
  - exists v. rewrite propagate_stop by lia.
    repeat split; try reflexivity; try lia.
    + intros H i Hi Hn. specialize (H i Hi Hn).
      destruct (Z.eqb_spec i ((0 - 1) / 2)); [lia|]. rewrite Qplus_0_r in H. exact H.
  - set (f := (idx - 1) / 2) in *.
    assert (Hf : 0 <= f < idx) by (unfold f; lia).
    set (v1 := <[Z.to_nat f := (weight_at v f + diff)%Q]> v).
    assert (Hlen1 : length v1 = length v) by (unfold v1; apply length_insert).
    destruct (IH ltac:(lia) v1 ltac:(lia)) as (v' & Hp & Hlen & Hsame & Hroot & Hinv).
    exists v'. rewrite propagate_step by lia. fold f. fold v1.
    split; [exact Hp|]. split; [congruence|].
    assert (Hw1 : forall i, 0 <= i ->
              weight_at v1 i = if i =? f then (weight_at v f + diff)%Q else weight_at v i).
    { intros i Hi. unfold v1. rewrite weight_at_insert by lia.
      rewrite Z2Nat.id by lia. reflexivity. }
    split; [|split].
    + intros j Hj. rewrite Hsame by lia. unfold v1.
      apply list_lookup_insert_ne. lia.
    + intros _. destruct (Z.eq_dec f 0) as [Hf0|Hf0].
      * rewrite propagate_stop in Hp by lia. inversion Hp; subst v'.
        rewrite Hw1 by lia. rewrite Hf0. reflexivity.
      * rewrite Hroot by lia. rewrite Hw1 by lia.
        destruct (Z.eqb_spec 0 f); [lia|reflexivity].
    + intros H. apply Hinv. intros i Hi Hn. rewrite Hlen1 in Hn.
      specialize (H i Hi Hn).
      rewrite !Hw1 by lia.
      destruct (Z.eqb_spec i f) as [Heq|Hif].
      * rewrite Heq in *. clear Heq.
        destruct (Z.eqb_spec f ((f - 1) / 2)); [lia|].
        destruct (Z.eqb_spec (2 * f + 1) f); [lia|].
        destruct (Z.eqb_spec (2 * f + 2) f); [lia|].
        rewrite Qplus_0_r. exact H.
      * rewrite Qplus_0_r in H.
        destruct (Z.eqb_spec i ((f - 1) / 2)) as [Hh|Hh];
        destruct (Z.eqb_spec (2 * i + 1) f); destruct (Z.eqb_spec (2 * i + 2) f);
          try lia; rewrite H;
          repeat match goal with E : _ = f |- _ => rewrite <- E; clear E end; ring.
Qed.

Lemma propagate_total (v : list Q) (diff : Q) (idx : Z) :
  idx < Z.of_nat (length v) ->
  exists v', propagate v diff idx = Ok v' /\ length v' = length v.
Proof.
  intros H. destruct (Z_lt_le_dec idx 0).
  - exists v. rewrite propagate_stop by lia. auto.
  - destruct (propagate_spec diff idx v ltac:(lia)) as (v' & Hp & Hlen & _).
    eauto.
Qed.

(** ** [update] *)

Lemma pow2_succ (d : Z) : 0 <= d -> 2 ^ (d + 1) = 2 * 2 ^ d.
Proof. intros H. rewrite Z.pow_add_r by lia. lia. Qed.

Lemma pow2_pos (d : Z) : 0 <= d -> 1 <= 2 ^ d.
Proof. intros H. pose proof (Z.pow_pos_nonneg 2 d). lia. Qed.

Lemma well_formed_length (self : SumTree) :
  well_formed self ->
  Z.of_nat (length (value self)) = 2 * 2 ^ tree_depth self - 1 /\
  1 <= 2 ^ tree_depth self.
Proof.
  intros [Hd Hs Hl _ _ _]. rewrite Hl, Hs, pow2_succ by assumption.
  split; [reflexivity|]. apply pow2_pos; assumption.
Qed.

(** [update] can only fail at its first read of the array, and then with
    [IndexError]: nothing has been written when it raises. *)
Lemma update_raise (self : SumTree) (slot : Z) (w : Q) (e : exn) :
  update self slot w = Raise e ->
  e = IndexError /\
  getitem (value self) (slot + 2 ^ tree_depth self - 1) = Raise IndexError.
Proof.
  unfold update. set (idx := slot + 2 ^ tree_depth self - 1).
  destruct (getitem (value self) idx) as [old|e'] eqn:Hget; simpl; intros H.
  - exfalso.
    assert (Hb : - Z.of_nat (length (value self)) <= idx < Z.of_nat (length (value self)))
      by (apply getitem_ok_iff; eauto).
    unfold setitem in H.
    destruct (np_index (length (value self)) idx) as [k|e'] eqn:Hk.
    + simpl in H.
      destruct (propagate_total (<[k := w]> (value self)) (w - old)%Q idx) as (v' & Hp & _).
      { rewrite length_insert. lia. }
      rewrite Hp in H. discriminate.
    + apply np_index_exn in Hk. lia.
  - inversion H; subst e'. apply getitem_exn in Hget as [-> _]. auto.
Qed.

Lemma update_ok_iff (self : SumTree) (slot : Z) (w : Q) :
  (exists self', update self slot w = Ok self') <->
  - Z.of_nat (length (value self)) <= slot + 2 ^ tree_depth self - 1
     < Z.of_nat (length (value self)).
Proof.
  rewrite <- getitem_ok_iff. split.
  - intros [self' H]. unfold update in H.
    destruct (getitem (value self) (slot + 2 ^ tree_depth self - 1)); [eauto|discriminate].
  - intros [x H]. destruct (update self slot w) as [self'|e] eqn:E; [eauto|].
    apply update_raise in E as [_ E]. congruence.
Qed.

(** A successful [update] writes the array only. *)
Lemma update_fields (self self' : SumTree) (slot : Z) (w : Q) :
  update self slot w = Ok self' ->
  exists v', self' = set_value self v' /\ length v' = length (value self).
Proof.
  unfold update. set (idx := slot + 2 ^ tree_depth self - 1).
  destruct (getitem (value self) idx) as [old|e'] eqn:Hget; simpl; [|discriminate].
  assert (Hb : - Z.of_nat (length (value self)) <= idx < Z.of_nat (length (value self)))
    by (apply getitem_ok_iff; eauto).
  unfold setitem. destruct (np_index (length (value self)) idx) as [k|e'] eqn:Hk;
    simpl; [|discriminate].
  destruct (propagate_total (<[k := w]> (value self)) (w - old)%Q idx) as (v' & Hp & Hlen).
  { rewrite length_insert. lia. }
  rewrite Hp. simpl. intros E. inversion E. exists v'. split; [reflexivity|].
  rewrite Hlen. apply length_insert.
Qed.

(** What [update] does at a leaf of a well-formed tree. *)
Lemma update_leaf (self : SumTree) (slot : Z) (w : Q) :
  well_formed self -> 0 <= slot < 2 ^ tree_depth self ->
  exists v',
    update self slot w = Ok (set_value self v') /\
    length v' = length (value self) /\
    leaves (set_value self v') = <[Z.to_nat slot := w]> (leaves self) /\
    (weight_at v' 0 ==
       weight_at (value self) 0
       + (w - weight_at (value self) (slot + 2 ^ tree_depth self - 1)))%Q /\
    (sum_inv (value self) -> sum_inv v').
Proof.
  intros Hwf Hslot. destruct (well_formed_length self Hwf) as [Hn Hp2].
  unfold update, leaves. simpl.
  set (d := tree_depth self) in *. set (v := value self) in *.
  set (idx := slot + 2 ^ d - 1).
  assert (Hidx : 2 ^ d - 1 <= idx < Z.of_nat (length v)) by (unfold idx; lia).
  rewrite getitem_in by lia. simpl. rewrite setitem_in by lia. simpl.
  set (diff := (w - weight_at v idx)%Q).
  set (v1 := <[Z.to_nat idx := w]> v).
  assert (Hlen1 : length v1 = length v) by apply length_insert.
  destruct (propagate_spec diff idx v1 ltac:(lia)) as (v' & Hp & Hlen & Hsame & Hroot & Hinv).
  exists v'. rewrite Hp. simpl. split; [reflexivity|]. split; [congruence|].
  assert (Hw1 : forall i, 0 <= i ->
            weight_at v1 i = if i =? idx then w else weight_at v i).
  { intros i Hi. unfold v1. rewrite weight_at_insert by lia.
    rewrite Z2Nat.id by lia. reflexivity. }
  split; [|split].
  - replace (Z.to_nat slot) with (Z.to_nat idx - Z.to_nat (2 ^ d - 1))%nat
      by (unfold idx; lia).
    rewrite <- drop_insert_ge by lia. fold v1.
    apply list_eq. intros i. rewrite !lookup_drop. apply Hsame. lia.
  - destruct (Z.eq_dec idx 0) as [Hz|Hnz].
    + rewrite propagate_stop in Hp by lia. inversion Hp; subst v'.
      rewrite Hw1 by lia. rewrite Hz. simpl. unfold diff. rewrite Hz. ring.
    + rewrite Hroot by lia. rewrite Hw1 by lia.
      destruct (Z.eqb_spec 0 idx); [lia|]. reflexivity.
  - intros H. apply Hinv. intros i Hi Hlt. rewrite Hlen1 in Hlt.
    specialize (H i Hi Hlt). rewrite !Hw1 by lia.
    destruct (Z.eqb_spec i idx); [lia|].
    destruct (Z.eqb_spec i ((idx - 1) / 2)) as [Hh|Hh];
      destruct (Z.eqb_spec (2 * i + 1) idx) as [E1|E1];
      destruct (Z.eqb_spec (2 * i + 2) idx) as [E2|E2];
      try lia; rewrite H; unfold diff;
      try rewrite <- E1; try rewrite <- E2; ring.
Qed.

(** ** Sums of leaves *)

Lemma Qsum_insert (l : list Q) (k : nat) (x : Q) :
  (k < length l)%nat ->
  (Qsum (<[k := x]> l) == Qsum l + (x - default 0 (l !! k)))%Q.
Proof.
  revert k. induction l as [|y l IH]; intros k Hk; simpl in Hk; [lia|].
  destruct k as [|k]; simpl.
  - ring.
  - rewrite IH by lia. ring.
Qed.

Lemma Qsum_zeros (n : nat) : (Qsum (replicate n 0) == 0)%Q.
Proof. induction n as [|n IH]; simpl; [reflexivity|]. rewrite IH. ring. Qed.

Lemma weight_at_zeros (n : Z) (i : Z) : weight_at (np_zeros n) i = 0%Q.
Proof.
  unfold weight_at, np_zeros.
  destruct (replicate (Z.to_nat n) 0%Q !! Z.to_nat i) as [x|] eqn:E; [|reflexivity].
  apply lookup_replicate_1 in E as [-> _]. reflexivity.
Qed.

Lemma leaves_lookup (self : SumTree) (slot : Z) :
  0 <= tree_depth self -> 0 <= slot ->
  default 0%Q (leaves self !! Z.to_nat slot)
  = weight_at (value self) (slot + 2 ^ tree_depth self - 1).
Proof.
  intros Hd Hs. pose proof (pow2_pos _ Hd). unfold leaves, weight_at.
  rewrite lookup_drop. do 2 f_equal. lia.
Qed.

(** ** Construction and valid calls *)

Lemma ceil_log2_spec (n : Z) :
  1 <= n ->
  0 <= Z.log2_up n /\ n <= 2 ^ Z.log2_up n /\
  (forall d, 0 <= d -> n <= 2 ^ d -> Z.log2_up n <= d).
Proof.
  intros Hn. split; [apply Z.log2_up_nonneg|]. split.
  - destruct (Z.eq_dec n 1) as [->|Hne]; [reflexivity|].
    apply Z.log2_up_spec. lia.
  - intros d Hd Hle. apply Z.log2_up_le_pow2; lia.
Qed.

Lemma init_ok (capacity : Z) :
  1 <= capacity ->
  __init__ capacity
  = Ok (mkSumTree capacity (Z.log2_up capacity) (2 ^ (Z.log2_up capacity + 1) - 1)
          0 0 (np_zeros (2 ^ (Z.log2_up capacity + 1) - 1))).
Proof.
  intros H. unfold __init__, ceil_log2.
  destruct (Z.leb_spec capacity 0); [lia|]. reflexivity.
Qed.

Lemma init_well_formed (capacity : Z) (self : SumTree) :
  __init__ capacity = Ok self -> well_formed self /\ max_size self = capacity.
Proof.
  unfold __init__, ceil_log2. destruct (Z.leb_spec capacity 0); [discriminate|].
  simpl. intros E. inversion E; subst self; clear E.
  destruct (ceil_log2_spec capacity ltac:(lia)) as (Hd & Hle & _).
  pose proof (pow2_pos _ Hd). pose proof (pow2_succ _ Hd).
  split; [|reflexivity].
  constructor; simpl; try lia.
  unfold np_zeros. rewrite length_replicate. lia.
Qed.

Lemma init_tree_inv (capacity : Z) (self : SumTree) :
  __init__ capacity = Ok self -> tree_inv self.
Proof.
  intros Hinit. destruct (init_well_formed _ _ Hinit) as [Hwf _].
  revert Hinit. unfold __init__, ceil_log2.
  destruct (Z.leb_spec capacity 0); [discriminate|].
  simpl. intros E. inversion E; subst self; clear E.
  constructor; [exact Hwf| | |].
  - intros i _ _. simpl. rewrite !weight_at_zeros. ring.
  - unfold leaves, np_zeros. simpl. apply Forall_drop, Forall_replicate. lra.
  - unfold leaves. simpl. rewrite weight_at_zeros.
    unfold np_zeros. rewrite drop_replicate, Qsum_zeros. reflexivity.
Qed.

Lemma well_formed_set_value (self : SumTree) (v : list Q) :
  well_formed self -> length v = length (value self) ->
  well_formed (set_value self v).
Proof.
  intros [? ? ? ? ? ?] Hlen. constructor; unfold set_value; simpl; try assumption.
  rewrite Hlen. assumption.
Qed.

Lemma update_tree_inv (self : SumTree) (slot : Z) (w : Q) :
  tree_inv self -> 0 <= slot < max_size self -> (0 <= w)%Q ->
  exists v', update self slot w = Ok (set_value self v') /\
             tree_inv (set_value self v').
Proof.
  intros [Hwf Hsum Hleaves Htotal] Hslot Hw.
  pose proof (wf_capacity _ Hwf) as Hcap. pose proof (wf_depth _ Hwf) as Hd.
  destruct (update_leaf self slot w Hwf ltac:(lia))
    as (v' & Hup & Hlen & Hlv & Hroot & Hinv).
  exists v'. split; [exact Hup|].
  destruct (well_formed_length _ Hwf) as [Hn Hp2].
  assert (Hk : (Z.to_nat slot < length (leaves self))%nat).
  { unfold leaves. rewrite length_drop. lia. }
  constructor.
  - apply well_formed_set_value; assumption.
  - simpl. auto.
  - rewrite Hlv. apply Forall_insert; assumption.
  - rewrite Hlv. simpl. rewrite Hroot, Qsum_insert by assumption.
    rewrite leaves_lookup by lia. rewrite Htotal. reflexivity.
Qed.

Lemma add_tree_inv (self : SumTree) (w : Q) :
  tree_inv self -> (0 <= w)%Q ->
  exists self', add self w = Ok self' /\ tree_inv self' /\
                max_size self' = max_size self.
Proof.
  intros Hinv Hw. pose proof (ti_wf _ Hinv) as Hwf.
  pose proof (wf_curr _ Hwf) as Hc. pose proof (wf_size _ Hwf) as Hs.
  destruct (update_tree_inv self (curr self) w Hinv Hc Hw) as (v' & Hup & Hinv').
  unfold add. rewrite Hup. simpl. unfold py_mod.
  destruct (Z.eqb_spec (max_size self) 0); [lia|]. simpl.
  eexists. split; [reflexivity|]. split; [|reflexivity].
  destruct Hinv' as [Hwf' Hsum' Hleaves' Htotal'].
  constructor; try assumption.
  destruct Hwf' as [? ? ? ? ? ?]. simpl in *.
  pose proof (Z.mod_pos_bound (curr self + 1) (max_size self) ltac:(lia)).
  constructor; simpl; try assumption; lia.
Qed.

Lemma do_calls_tree_inv (cs : list call) :
  forall self, tree_inv self -> Forall (valid_call (max_size self)) cs ->
  exists self', do_calls self cs = Ok self' /\ tree_inv self' /\
                max_size self' = max_size self.
Proof.
  induction cs as [|c cs IH]; intros self Hinv Hvalid.
  - exists self. simpl. split; [reflexivity|]. split; [assumption|reflexivity].
  - apply Forall_cons in Hvalid as [Hc Hcs]. simpl.
    assert (Hstep : exists self1, do_call self c = Ok self1 /\ tree_inv self1 /\
                                  max_size self1 = max_size self).
    { destruct c as [slot w|w]; simpl in *.
      - destruct Hc as [Hslot Hw].
        destruct (update_tree_inv self slot w Hinv Hslot Hw) as (v' & Hup & Hinv').
        eauto.
      - apply add_tree_inv; assumption. }
    destruct Hstep as (self1 & Hdo & Hinv1 & Hmax). rewrite Hdo. simpl.
    rewrite <- Hmax in Hcs. destruct (IH self1 Hinv1 Hcs) as (self' & Hrun & Hinv' & Hmax').
    exists self'. split; [assumption|]. split; [assumption|congruence].
Qed.

Lemma run_tree_inv (capacity : Z) (cs : list call) :
  1 <= capacity -> Forall (valid_call capacity) cs ->
  exists self, run capacity cs = Ok self /\ tree_inv self /\
               max_size self = capacity.
Proof.
  intros Hc Hvalid. unfold run.
  pose proof (init_ok capacity Hc) as Hinit. rewrite Hinit. simpl.
  pose proof (init_tree_inv _ _ Hinit) as Hinv.
  apply (do_calls_tree_inv cs _ Hinv). exact Hvalid.
Qed.

Lemma tree_inv_sum_invariant (self : SumTree) :
  well_formed self -> sum_inv (value self) -> sum_invariant self.
Proof.
  intros Hwf Hsum i Hi. destruct (well_formed_length _ Hwf) as [Hn _].
  apply Hsum; lia.
Qed.

(** I1 and non-negative leaves give I2 for every node. *)
Lemma tree_inv_nonneg (self : SumTree) : tree_inv self -> nonneg_weights self.
Proof.
  intros [Hwf Hsum Hleaves _]. destruct (well_formed_length _ Hwf) as [Hn Hp2].
  pose proof (wf_depth _ Hwf) as Hd.
  set (v := value self) in *. set (d := tree_depth self) in *.
  assert (Hin : forall k : nat, forall i, 0 <= i ->
            Z.of_nat (length v) - i <= Z.of_nat k -> (0 <= weight_at v i)%Q).
  { induction k as [|k IH]; intros i Hi Hk.
    - unfold weight_at. rewrite lookup_ge_None_2 by lia. simpl. lra.
    - destruct (Z_lt_le_dec i (2 ^ d - 1)) as [Hint|Hleaf].
      + rewrite (Hsum i) by lia.
        pose proof (IH (2 * i + 1) ltac:(lia) ltac:(lia)).
        pose proof (IH (2 * i + 2) ltac:(lia) ltac:(lia)). lra.
      + unfold weight_at. destruct (v !! Z.to_nat i) as [x|] eqn:E; simpl; [|lra].
        rewrite Forall_lookup in Hleaves.
        apply (Hleaves (Z.to_nat i - Z.to_nat (2 ^ d - 1))%nat x).
        unfold leaves. fold d v. rewrite lookup_drop. rewrite <- E. f_equal. lia. }
  intros i. change (0 <= weight_at v i)%Q.
  destruct (Z_lt_le_dec i 0) as [Hneg|Hpos].
  - replace (weight_at v i) with (weight_at v 0)
      by (unfold weight_at; f_equal; f_equal; lia).
    apply (Hin (length v)); lia.
  - apply (Hin (length v)); lia.
Qed.

(** Every tree built by valid calls is well formed and satisfies I1 and I2. *)
Lemma valid_calls_invariants (capacity : Z) (cs : list call) (self : SumTree) :
  1 <= capacity -> Forall (valid_call capacity) cs ->
  run capacity cs = Ok self ->
  well_formed self /\ sum_invariant self /\ nonneg_weights self.
Proof.
  intros Hc Hvalid Hrun.
  destruct (run_tree_inv capacity cs Hc Hvalid) as (self' & Hrun' & Hinv & _).
  assert (self' = self) by congruence. subst self'.
  split; [apply (ti_wf _ Hinv)|]. split.
  - apply tree_inv_sum_invariant; [apply (ti_wf _ Hinv)|apply (ti_sum _ Hinv)].
  - apply tree_inv_nonneg; exact Hinv.
Qed.

(** ** [find] *)

Lemma _find_helper_fuel (fuel : nat) :
  forall self target index r,
  _find_helper fuel self target index = Some r ->
  forall fuel', (fuel <= fuel')%nat -> _find_helper fuel' self target index = Some r.
Proof.
  induction fuel as [|fuel IH]; intros self target index r H fuel' Hle; [discriminate|].
  destruct fuel' as [|fuel']; [lia|]. simpl in *.
  destruct (2 * index + 1 >? tree_size self - 1); [exact H|].
  destruct (getitem (value self) (2 * index + 1)) as [left_value|e]; [|exact H].
  destruct (Qle_bool target left_value); eapply IH; try eassumption; lia.
Qed.

Lemma find_fuel (fuel : nat) (self : SumTree) (target : Q) (normalize : bool) r :
  find fuel self target normalize = Some r ->
  forall fuel', (fuel <= fuel')%nat -> find fuel' self target normalize = Some r.
Proof.
  unfold find. intros H fuel' Hle.
  destruct (if normalize then _ else _) as [target'|e]; [|exact H].
  destruct (_find_helper fuel self target' 0) as [r0|] eqn:E; [|discriminate].
  rewrite (_find_helper_fuel _ _ _ _ _ E fuel' Hle). exact H.
Qed.

Lemma pow2_le (a b : Z) : 0 <= a <= b -> 2 ^ a <= 2 ^ b.
Proof. intros H. apply Z.pow_le_mono_r; lia. Qed.

(** From a node of level [j] the descent reaches a leaf after [depth - j]
    more calls and returns a slot of the padded range. *)
Lemma _find_helper_returns (self : SumTree) :
  well_formed self ->
  forall (fuel : nat) (j index : Z) (target : Q),
  0 <= j <= tree_depth self ->
  2 ^ j - 1 <= index <= 2 ^ (j + 1) - 2 ->
  tree_depth self - j < Z.of_nat fuel ->
  exists s x, _find_helper fuel self target index = Some (Ok (s, x)) /\
              0 <= s < 2 ^ tree_depth self.
Proof.
  intros Hwf. destruct (well_formed_length _ Hwf) as [Hn Hp2].
  pose proof (wf_depth _ Hwf) as Hd. pose proof (wf_length _ Hwf) as Hlen.
  induction fuel as [|fuel IH]; intros j index target Hj Hidx Hfuel; [lia|].
  pose proof (pow2_succ j ltac:(lia)) as Hj1.
  pose proof (pow2_pos j ltac:(lia)) as Hj0.
  pose proof (pow2_le (j + 1) (tree_depth self + 1) ltac:(lia)) as Hle.
  rewrite (pow2_succ (tree_depth self)) in Hle by lia.
  simpl. destruct (Z.gtb_spec (2 * index + 1) (tree_size self - 1)) as [Hleaf|Hnode].
  - rewrite getitem_in by lia. simpl. do 2 eexists. split; [reflexivity|]. lia.
  - assert (Hjd : j < tree_depth self).
    { destruct (Z.eq_dec j (tree_depth self)) as [->|]; [lia|lia]. }
    rewrite getitem_in by lia.
    pose proof (pow2_succ (j + 1) ltac:(lia)) as Hj2.
    destruct (Qle_bool target (weight_at (value self) (2 * index + 1)));
      apply (IH (j + 1)); lia.
Qed.


(** With a target above the weight of the subtree the descent keeps to the
    right. *)
Lemma _find_helper_rightmost (self : SumTree) :
  well_formed self -> sum_invariant self -> nonneg_weights self ->
  forall (fuel : nat) (j : Z) (target : Q),
  0 <= j <= tree_depth self ->
  (weight_at (value self) (2 ^ (j + 1) - 2) < target)%Q ->
  tree_depth self - j < Z.of_nat fuel ->
  exists x, _find_helper fuel self target (2 ^ (j + 1) - 2)
            = Some (Ok (2 ^ tree_depth self - 1, x)).
Proof.
  intros Hwf Hsum Hnn. destruct (well_formed_length _ Hwf) as [Hn Hp2].
  pose proof (wf_depth _ Hwf) as Hd. pose proof (wf_length _ Hwf) as Hlen.
  induction fuel as [|fuel IH]; intros j target Hj Hw Hfuel; [lia|].
  pose proof (pow2_succ j ltac:(lia)) as Hj1.
  pose proof (pow2_succ (j + 1) ltac:(lia)) as Hj2.
  pose proof (pow2_pos j ltac:(lia)) as Hj0.
  pose proof (pow2_le j (tree_depth self) ltac:(lia)) as Hle.
  simpl.
  destruct (Z.gtb_spec (2 * (2 ^ (j + 1) - 2) + 1) (tree_size self - 1)) as [Hleaf|Hnode].
  - rewrite getitem_in by lia. simpl. eexists. do 3 f_equal.
    destruct (Z.eq_dec j (tree_depth self)) as [->|Hne]; [lia|].
    pose proof (pow2_le (j + 1) (tree_depth self) ltac:(lia)). lia.
  - assert (Hjd : j < tree_depth self).
    { destruct (Z.eq_dec j (tree_depth self)) as [E|]; [rewrite E in *|]; lia. }
    pose proof (pow2_le (j + 1) (tree_depth self) ltac:(lia)) as Hle1.
    rewrite getitem_in by lia.
    pose proof (Hsum (2 ^ (j + 1) - 2) ltac:(lia)) as Hnode_sum.
    pose proof (Hnn (2 * (2 ^ (j + 1) - 2) + 2)) as Hr.
    replace (2 * (2 ^ (j + 1) - 2) + 2) with (2 ^ (j + 1 + 1) - 2) in * by lia.
    destruct (Qle_bool target (weight_at (value self) (2 * (2 ^ (j + 1) - 2) + 1))) eqn:E.
    + exfalso. apply Qle_bool_iff in E. lra.
    + apply IH; try lia. lra.
Qed.


(** * The claims

    C2 to C5 and C7 to C10 follow, on the exact embedding.  C1 and C6 are
    about the arithmetic and the comparison of the program and are stated on
    [Float64], after the lemmas on the float64 program. *)

Lemma total_well_formed (self : SumTree) :
  well_formed self -> total self = Ok (weight_at (value self) 0).
Proof.
  intros Hwf. destruct (well_formed_length _ Hwf). unfold total.
  apply getitem_in. lia.
Qed.

(** C2 (the code at the inputs of the claim).  With capacity 5, after the
    appends 5 and 1, [max()] returns 0, not 5, and still 0 after a third
    append of 0: the scan starts at [2**tree_depth + 1], two leaves after the
    first leaf [2**tree_depth - 1] that [update] writes. *)
Theorem max_skips_first_leaves :
  exists s2 s3 m2 m3,
    run 5 (appends [5; 1]%Q) = Ok s2 /\ size s2 = 2 /\
    leaf_weight s2 0 = 5%Q /\ leaf_weight s2 1 = 1%Q /\
    max s2 = Ok m2 /\ (m2 == 0)%Q /\ ~ (m2 == 5)%Q /\
    run 5 (appends [5; 1; 0]%Q) = Ok s3 /\ size s3 = 3 /\
    max s3 = Ok m3 /\ (m3 == 0)%Q /\ ~ (m3 == 5)%Q.
Proof.
  do 4 eexists. vm_compute.
  repeat split; try reflexivity; try discriminate.
Qed.




(** C4 (counterexample).  On the tree with leaves 1, 2, 3, 4 the call
    [find(1.0, normalize=false)] returns slot 0, not slot 1: at the root the
    target 1 is below the weight 3 of the left child, below it the target
    equals the weight 1 of the left leaf, and [<=] routes left both times. *)
Lemma find_boundary_counterexample :
  exists self,
    run 4 (appends [1; 2; 3; 4]%Q) = Ok self /\
    find 3 self 1%Q false = Some (Ok 0) /\
    find 3 self 1%Q false <> Some (Ok 1).
Proof.
  exists tree_1234. vm_compute. repeat split; try reflexivity; discriminate.
Qed.

(** C4 (amended).  For the capacity-4 tree populated with the leaf weights
    1, 2, 3, 4 in slot order, [total() == 10], [find(0.0, normalize=false)]
    is 0, [find(1.0, normalize=false)] is 0, and
    [find(9.999, normalize=false)] is 3. *)
Theorem find_on_1234 :
  forall fuel : nat,
  (3 <= fuel)%nat ->
  exists self t,
    run 4 (appends [1; 2; 3; 4]%Q) = Ok self /\
    total self = Ok t /\ (t == 10)%Q /\
    find fuel self 0%Q false = Some (Ok 0) /\
    find fuel self 1%Q false = Some (Ok 0) /\
    find fuel self (9999 # 1000)%Q false = Some (Ok 3).
Proof.
  intros fuel Hfuel. exists tree_1234, 10%Q.
  split; [vm_compute; reflexivity|]. split; [reflexivity|]. split; [reflexivity|].
  repeat split; apply (find_fuel 3); try assumption; vm_compute; reflexivity.
Qed.

Lemma find_on_1234_witness :
  exists self t,
    run 4 (appends [1; 2; 3; 4]%Q) = Ok self /\
    total self = Ok t /\ (t == 10)%Q /\
    find 5 self 0%Q false = Some (Ok 0) /\
    find 5 self 1%Q false = Some (Ok 0) /\
    find 5 self (9999 # 1000)%Q false = Some (Ok 3).
Proof.
  apply (find_on_1234 5). lia.
Defined.

(** C5. With capacity 3, [append(1); append(2); append(3)] gives
    [total() == 6] and leaves the cursor on slot 0, which holds 1; a further
    [append(4)] replaces that weight and gives [total() == 9].  In general
    [append(w)] is [update(cursor, w)] followed by
    [cursor = (cursor + 1) mod capacity] and
    [count = min(count + 1, capacity)]. *)
Theorem add_is_update_at_cursor :
  (forall (self : SumTree) (w : Q),
   1 <= max_size self ->
   add self w =
     (let* self' := update self (curr self) w in
      Ok (mkSumTree (max_size self) (tree_depth self) (tree_size self)
            ((curr self + 1) mod max_size self)
            (Z.min (size self + 1) (max_size self))
            (value self')))) /\
  exists s3 s4 t3 t4,
    run 3 (appends [1; 2; 3]%Q) = Ok s3 /\
    total s3 = Ok t3 /\ (t3 == 6)%Q /\
    curr s3 = 0 /\ (leaf_weight s3 0 == 1)%Q /\
    add s3 4%Q = Ok s4 /\
    run 3 (appends [1; 2; 3; 4]%Q) = Ok s4 /\
    total s4 = Ok t4 /\ (t4 == 9)%Q /\
    (leaf_weight s4 0 == 4)%Q /\ curr s4 = 1 /\ size s4 = 3.
Proof.
  split.
  - intros self w Hcap.
    unfold add. destruct (update self (curr self) w) as [self'|e] eqn:Hup; simpl;
      [|reflexivity].
    apply update_fields in Hup as (v' & -> & _). simpl. unfold py_mod.
    destruct (Z.eqb_spec (max_size self) 0); [lia|]. reflexivity.
  - do 4 eexists. vm_compute. repeat split; reflexivity.
Qed.

Lemma add_is_update_at_cursor_witness :
  add tree_1234 9%Q =
    (let* self' := update tree_1234 (curr tree_1234) 9%Q in
     Ok (mkSumTree (max_size tree_1234) (tree_depth tree_1234) (tree_size tree_1234)
           ((curr tree_1234 + 1) mod max_size tree_1234)
           (Z.min (size tree_1234 + 1) (max_size tree_1234))
           (value self'))).
Proof.
  apply (proj1 add_is_update_at_cursor tree_1234 9%Q). simpl. lia.
Defined.

(** C7. [new(capacity)] fails (Python's [ValueError] of [math.log2], the
    specification's InvalidCapacity) exactly when [capacity == 0]; for every
    [capacity >= 1] it succeeds with [depth = ceil(log2(capacity))] (the least
    [d] with [capacity <= 2^d], 0 for capacity 1), an array of
    [2^(depth+1) - 1] zeros, [cursor = 0] and [count = 0]. *)
Theorem init_spec :
  forall capacity : Z,
  0 <= capacity ->
  ((exists e, __init__ capacity = Raise e) <-> capacity = 0) /\
  (capacity = 0 -> __init__ capacity = Raise ValueError) /\
  (1 <= capacity ->
   exists self,
     __init__ capacity = Ok self /\
     max_size self = capacity /\
     0 <= tree_depth self /\
     capacity <= 2 ^ tree_depth self /\
     (forall d, 0 <= d -> capacity <= 2 ^ d -> tree_depth self <= d) /\
     (capacity = 1 -> tree_depth self = 0) /\
     tree_size self = 2 ^ (tree_depth self + 1) - 1 /\
     Z.of_nat (length (value self)) = 2 ^ (tree_depth self + 1) - 1 /\
     Forall (fun x => x = 0%Q) (value self) /\
     curr self = 0 /\ size self = 0).
Proof.
  intros capacity Hc. split; [|split].
  - split.
    + intros [e He]. destruct (Z.eq_dec capacity 0) as [|Hne]; [assumption|].
      rewrite init_ok in He by lia. discriminate.
    + intros ->. exists ValueError. reflexivity.
  - intros ->. reflexivity.
  - intros Hpos. eexists. split; [apply init_ok; assumption|]. simpl.
    destruct (ceil_log2_spec capacity Hpos) as (Hd & Hle & Hleast).
    pose proof (pow2_pos _ Hd). pose proof (pow2_succ _ Hd).
    repeat split; try assumption.
    + intros ->. reflexivity.
    + unfold np_zeros. rewrite length_replicate. lia.
    + unfold np_zeros. apply Forall_replicate. reflexivity.
Qed.

Lemma init_spec_witness :
  ((exists e, __init__ 5 = Raise e) <-> 5 = 0) /\
  (5 = 0 -> __init__ 5 = Raise ValueError) /\
  (1 <= 5 ->
   exists self,
     __init__ 5 = Ok self /\
     max_size self = 5 /\
     0 <= tree_depth self /\
     5 <= 2 ^ tree_depth self /\
     (forall d, 0 <= d -> 5 <= 2 ^ d -> tree_depth self <= d) /\
     (5 = 1 -> tree_depth self = 0) /\
     tree_size self = 2 ^ (tree_depth self + 1) - 1 /\
     Z.of_nat (length (value self)) = 2 ^ (tree_depth self + 1) - 1 /\
     Forall (fun x => x = 0%Q) (value self) /\
     curr self = 0 /\ size self = 0).
Proof.
  apply (init_spec 5). lia.
Defined.



Lemma find_above_total (self : SumTree) (target : Q) (fuel : nat) :
  well_formed self -> sum_invariant self -> nonneg_weights self ->
  (weight_at (value self) 0 < target)%Q ->
  tree_depth self < Z.of_nat fuel ->
  find fuel self target false = Some (Ok (2 ^ tree_depth self - 1)).
Proof.
  intros Hwf Hsum Hnn Ht Hfuel. pose proof (wf_depth _ Hwf) as Hd.
  destruct (_find_helper_rightmost self Hwf Hsum Hnn fuel 0 target
              ltac:(lia) Ht ltac:(lia)) as (x & Hx).
  unfold find. change (2 ^ (0 + 1) - 2) with 0 in Hx. rewrite Hx. reflexivity.
Qed.





(** C10. For every tree state and every target, [find] terminates (with more
    fuel than the depth it returns) and returns an integer in [0, 2^depth);
    and when the capacity is not a power of two there are states and targets
    (a fresh tree, any target above its total, [normalize=false]) for which
    the returned value is a padding slot [>= capacity]. *)
Theorem find_returns_padded_slot :
  (forall (self : SumTree) (target : Q) (normalize : bool) (fuel : nat),
   well_formed self ->
   tree_depth self < Z.of_nat fuel ->
   exists s, find fuel self target normalize = Some (Ok s) /\
             0 <= s < 2 ^ tree_depth self) /\
  (forall capacity : Z,
   1 <= capacity ->
   (forall k, 0 <= k -> capacity <> 2 ^ k) ->
   exists self target t,
     __init__ capacity = Ok self /\
     total self = Ok t /\ (t < target)%Q /\
     forall fuel : nat, tree_depth self < Z.of_nat fuel ->
     exists s, find fuel self target false = Some (Ok s) /\
               capacity <= s < 2 ^ tree_depth self).
Proof.
  split.
  - intros self target normalize fuel Hwf Hfuel. pose proof (wf_depth _ Hwf) as Hd.
    unfold find. fold (total self). rewrite (total_well_formed _ Hwf).
    destruct normalize; simpl.
    + destruct (_find_helper_returns self Hwf fuel 0 0
                  (target * weight_at (value self) 0)%Q) as (s & x & Hs & Hr);
        try (simpl; lia).
      rewrite Hs. eauto.
    + destruct (_find_helper_returns self Hwf fuel 0 0 target) as (s & x & Hs & Hr);
        try (simpl; lia).
      rewrite Hs. eauto.
  - intros capacity Hc Hnp.
    pose proof (init_ok capacity Hc) as Hinit.
    pose proof (init_tree_inv _ _ Hinit) as Hinv.
    pose proof (ti_wf _ Hinv) as Hwf.
    pose proof (wf_depth _ Hwf) as Hd. pose proof (wf_capacity _ Hwf) as Hcap.
    eexists. exists 1%Q, 0%Q. split; [exact Hinit|].
    split; [rewrite (total_well_formed _ Hwf); simpl; rewrite weight_at_zeros; reflexivity|].
    split; [reflexivity|].
    intros fuel Hfuel. eexists. split.
    + apply find_above_total; try assumption.
      * apply tree_inv_sum_invariant; [assumption|apply (ti_sum _ Hinv)].
      * apply tree_inv_nonneg; assumption.
      * simpl. rewrite weight_at_zeros. reflexivity.
    + simpl in *. specialize (Hnp _ Hd). lia.
Qed.

Lemma find_returns_padded_slot_witness :
  (exists s, find 3%nat tree_1234 (37 # 10)%Q true = Some (Ok s) /\
             0 <= s < 2 ^ tree_depth tree_1234) /\
  (exists self target t,
     __init__ 5 = Ok self /\
     total self = Ok t /\ (t < target)%Q /\
     forall fuel : nat, tree_depth self < Z.of_nat fuel ->
     exists s, find fuel self target false = Some (Ok s) /\
               5 <= s < 2 ^ tree_depth self).
Proof.
  split.
  - apply (proj1 find_returns_padded_slot tree_1234 (37 # 10)%Q true 3%nat).
    + constructor; simpl; lia.
    + simpl. lia.
  - apply (proj2 find_returns_padded_slot 5).
    + lia.
    + intros k Hk Heq.
      assert (Hcases : k < 2 \/ k = 2 \/ 3 <= k) by lia.
      destruct Hcases as [Hlt|[->|Hge]].
      * assert (Hk01 : k = 0 \/ k = 1) by lia. destruct Hk01 as [->| ->]; discriminate.
      * discriminate.
      * pose proof (Z.pow_le_mono_r 2 3 k ltac:(lia) Hge). simpl in *. lia.
Defined.

(** * Further properties of the class *)

(** ** What a call keeps *)

Lemma leaf_weight_leaves (self : SumTree) (slot : Z) :
  0 <= tree_depth self -> 0 <= slot ->
  leaf_weight self slot = default 0%Q (leaves self !! Z.to_nat slot).
Proof. intros Hd Hs. symmetry. apply leaves_lookup; assumption. Qed.

Lemma leaves_length (self : SumTree) :
  well_formed self -> Z.of_nat (length (leaves self)) = 2 ^ tree_depth self.
Proof.
  intros Hwf. destruct (well_formed_length _ Hwf) as [Hn Hp2].
  unfold leaves. rewrite length_drop. lia.
Qed.

(** A write to a leaf, seen from the slots. *)
Lemma update_slots (self : SumTree) (slot : Z) (w : Q) :
  well_formed self -> 0 <= slot < 2 ^ tree_depth self ->
  exists v',
    update self slot w = Ok (set_value self v') /\
    well_formed (set_value self v') /\
    leaves (set_value self v') = <[Z.to_nat slot := w]> (leaves self) /\
    leaf_weight (set_value self v') slot = w /\
    (forall s, 0 <= s -> s <> slot ->
       leaf_weight (set_value self v') s = leaf_weight self s) /\
    (weight_at v' 0 == weight_at (value self) 0 + (w - leaf_weight self slot))%Q /\
    (sum_inv (value self) -> sum_inv v').
Proof.
  intros Hwf Hslot. pose proof (wf_depth _ Hwf) as Hd.
  pose proof (leaves_length _ Hwf) as Hll.
  destruct (update_leaf self slot w Hwf Hslot) as (v' & Hup & Hlen & Hlv & Hroot & Hinv).
  exists v'. split; [exact Hup|].
  split; [apply well_formed_set_value; assumption|].
  split; [exact Hlv|]. split; [|split; [|split]].
  - rewrite leaf_weight_leaves by (simpl; lia).
    rewrite Hlv, list_lookup_insert_eq by lia. reflexivity.
  - intros s Hs Hne. rewrite !leaf_weight_leaves by (simpl; lia).
    rewrite Hlv, list_lookup_insert_ne by lia. reflexivity.
  - exact Hroot.
  - exact Hinv.
Qed.

Lemma update_sums_inv (self : SumTree) (slot : Z) (w : Q) :
  sums_inv self -> 0 <= slot < 2 ^ tree_depth self ->
  exists v', update self slot w = Ok (set_value self v') /\
             sums_inv (set_value self v').
Proof.
  intros [Hwf Hsum Htotal] Hslot. pose proof (wf_depth _ Hwf) as Hd.
  pose proof (leaves_length _ Hwf) as Hll.
  destruct (update_slots self slot w Hwf Hslot)
    as (v' & Hup & Hwf' & Hlv & _ & _ & Hroot & Hinv).
  exists v'. split; [exact Hup|]. constructor; [exact Hwf'|simpl; auto|].
  rewrite Hlv. simpl. rewrite Hroot, Qsum_insert by lia.
  rewrite leaf_weight_leaves by lia. rewrite Htotal. reflexivity.
Qed.

(** [add] on a well-formed tree: the write at the cursor always succeeds. *)
Lemma add_slots (self : SumTree) (w : Q) :
  well_formed self ->
  exists v',
    update self (curr self) w = Ok (set_value self v') /\
    add self w =
      Ok (set_cursor (set_value self v') ((curr self + 1) mod max_size self)
            (Z.min (size self + 1) (max_size self))) /\
    well_formed (set_cursor (set_value self v') ((curr self + 1) mod max_size self)
                   (Z.min (size self + 1) (max_size self))).
Proof.
  intros Hwf. pose proof (wf_curr _ Hwf) as Hc. pose proof (wf_size _ Hwf) as Hs.
  pose proof (wf_capacity _ Hwf) as Hcap.
  destruct (update_slots self (curr self) w Hwf ltac:(lia)) as (v' & Hup & Hwf' & _).
  exists v'. split; [exact Hup|]. split.
  - unfold add. rewrite Hup. simpl. unfold py_mod.
    destruct (Z.eqb_spec (max_size self) 0); [lia|]. reflexivity.
  - destruct Hwf' as [? ? ? ? ? ?]. simpl in *.
    pose proof (Z.mod_pos_bound (curr self + 1) (max_size self) ltac:(lia)).
    constructor; simpl; try assumption; lia.
Qed.

Lemma do_call_well_formed (self self' : SumTree) (c : call) :
  well_formed self -> do_call self c = Ok self' ->
  well_formed self' /\ max_size self' = max_size self /\
  tree_depth self' = tree_depth self /\
  curr self' = (curr self + count_appends [c]) mod max_size self /\
  size self' = Z.min (size self + count_appends [c]) (max_size self).
Proof.
  intros Hwf Hdo. pose proof (wf_curr _ Hwf) as Hc. pose proof (wf_size _ Hwf) as Hs.
  destruct c as [slot w|w]; simpl in *.
  - apply update_fields in Hdo as (v' & -> & Hlen).
    split; [apply well_formed_set_value; assumption|]. simpl.
    rewrite !Z.add_0_r, Z.mod_small by lia. repeat split; lia.
  - destruct (add_slots self w Hwf) as (v' & _ & Hadd & Hwf').
    rewrite Hadd in Hdo. inversion Hdo; subst self'; clear Hdo.
    split; [exact Hwf'|]. simpl. repeat split; reflexivity.
Qed.

Lemma count_appends_nonneg (cs : list call) : 0 <= count_appends cs.
Proof. induction cs as [|[?|?] cs IH]; simpl; lia. Qed.

Lemma do_calls_well_formed (cs : list call) :
  forall self self',
  well_formed self -> do_calls self cs = Ok self' ->
  well_formed self' /\ max_size self' = max_size self /\
  tree_depth self' = tree_depth self /\
  curr self' = (curr self + count_appends cs) mod max_size self /\
  size self' = Z.min (size self + count_appends cs) (max_size self).
Proof.
  induction cs as [|c cs IH]; intros self self' Hwf Hrun; simpl in Hrun.
  - inversion Hrun; subst self'. pose proof (wf_curr _ Hwf). pose proof (wf_size _ Hwf).
    simpl. rewrite !Z.add_0_r, Z.mod_small by lia.
    split; [exact Hwf|]. repeat split; lia.
  - destruct (do_call self c) as [self1|e] eqn:Hc; simpl in Hrun; [|discriminate].
    destruct (do_call_well_formed _ _ _ Hwf Hc) as (Hwf1 & Hm1 & Hd1 & Hc1 & Hs1).
    destruct (IH _ _ Hwf1 Hrun) as (Hwf' & Hm' & Hd' & Hc' & Hs').
    pose proof (count_appends_nonneg cs) as Hn.
    pose proof (wf_capacity _ Hwf) as Hcap. pose proof (wf_size _ Hwf) as Hsz.
    split; [exact Hwf'|]. split; [congruence|]. split; [congruence|].
    rewrite Hc', Hs', Hm1, Hc1, Hs1. split.
    + replace (count_appends (c :: cs)) with (count_appends [c] + count_appends cs)
        by (destruct c; simpl; lia).
      rewrite Zplus_mod_idemp_l. f_equal. lia.
    + replace (count_appends (c :: cs)) with (count_appends [c] + count_appends cs)
        by (destruct c; simpl; lia).
      assert (0 <= count_appends [c]) by apply count_appends_nonneg. lia.
Qed.

(** X1. On a well-formed tree a write to any leaf slot of the padded range
    returns, stores the weight in that slot, leaves every other slot and the
    cursor, count and capacity as they were. *)
Theorem update_writes_one_slot :
  forall (self : SumTree) (slot : Z) (w : Q),
  well_formed self ->
  0 <= slot < 2 ^ tree_depth self ->
  exists self',
    update self slot w = Ok self' /\
    well_formed self' /\
    max_size self' = max_size self /\ curr self' = curr self /\
    size self' = size self /\
    leaf_weight self' slot = w /\
    forall s, 0 <= s -> s <> slot -> leaf_weight self' s = leaf_weight self s.
Proof.
  intros self slot w Hwf Hslot.
  destruct (update_slots self slot w Hwf Hslot)
    as (v' & Hup & Hwf' & _ & Hw & Hframe & _).
  exists (set_value self v'). repeat split; try assumption; apply Hwf'.
Qed.

Lemma update_writes_one_slot_witness :
  exists self',
    update tree_1234 1 (9 # 2)%Q = Ok self' /\
    well_formed self' /\
    max_size self' = max_size tree_1234 /\ curr self' = curr tree_1234 /\
    size self' = size tree_1234 /\
    leaf_weight self' 1 = (9 # 2)%Q /\
    forall s, 0 <= s -> s <> 1 -> leaf_weight self' s = leaf_weight tree_1234 s.
Proof.
  apply (update_writes_one_slot tree_1234 1 (9 # 2)%Q).
  - constructor; simpl; lia.
  - simpl. lia.
Defined.

(** X2. On a well-formed tree [update(slot, w)] raises exactly when
    [slot + 2^depth - 1] is no index of the array, that is unless
    [2 - 3 * 2^depth <= slot < 2^depth]; the only exception is [IndexError]. *)
Theorem update_raises_iff :
  forall (self : SumTree) (slot : Z) (w : Q),
  well_formed self ->
  ((exists self', update self slot w = Ok self')
   <-> 2 - 3 * 2 ^ tree_depth self <= slot < 2 ^ tree_depth self) /\
  (update self slot w = Raise IndexError
   <-> slot < 2 - 3 * 2 ^ tree_depth self \/ 2 ^ tree_depth self <= slot) /\
  (forall e, update self slot w = Raise e -> e = IndexError).
Proof.
  intros self slot w Hwf. destruct (well_formed_length _ Hwf) as [Hn Hp2].
  assert (Hok : (exists self', update self slot w = Ok self')
                <-> 2 - 3 * 2 ^ tree_depth self <= slot < 2 ^ tree_depth self).
  { rewrite update_ok_iff. lia. }
  split; [exact Hok|]. split.
  - split.
    + intros Hr. destruct (Z_lt_le_dec slot (2 - 3 * 2 ^ tree_depth self)); [lia|].
      destruct (Z_lt_le_dec slot (2 ^ tree_depth self)); [|lia].
      destruct (proj2 Hok ltac:(lia)) as [self' E]. congruence.
    + intros Hout. destruct (update self slot w) as [self'|e] eqn:E.
      * assert (Hin : 2 - 3 * 2 ^ tree_depth self <= slot < 2 ^ tree_depth self)
          by (apply Hok; eauto).
        lia.
      * apply update_raise in E as [-> _]. reflexivity.
  - intros e E. apply update_raise in E as [-> _]. reflexivity.
Qed.

Lemma update_raises_iff_witness :
  ((exists self', update tree_1234 (-10) 1%Q = Ok self')
   <-> 2 - 3 * 2 ^ tree_depth tree_1234 <= -10 < 2 ^ tree_depth tree_1234) /\
  (update tree_1234 (-10) 1%Q = Raise IndexError
   <-> -10 < 2 - 3 * 2 ^ tree_depth tree_1234 \/ 2 ^ tree_depth tree_1234 <= -10) /\
  (forall e, update tree_1234 (-10) 1%Q = Raise e -> e = IndexError).
Proof.
  apply (update_raises_iff tree_1234 (-10) 1%Q).
  constructor; simpl; lia.
Defined.

(** ** Sequences of calls with arbitrary weights *)

Lemma tree_inv_sums_inv (self : SumTree) : tree_inv self -> sums_inv self.
Proof. intros [Hwf Hsum _ Htotal]. constructor; assumption. Qed.

Lemma add_sums_inv (self : SumTree) (w : Q) :
  sums_inv self ->
  exists self',
    add self w = Ok self' /\ sums_inv self' /\
    max_size self' = max_size self /\ tree_depth self' = tree_depth self /\
    curr self' = (curr self + 1) mod max_size self /\
    size self' = Z.min (size self + 1) (max_size self) /\
    leaf_weight self' (curr self) = w /\
    (forall s, 0 <= s -> s <> curr self -> leaf_weight self' s = leaf_weight self s) /\
    (weight_at (value self') 0
     == weight_at (value self) 0 + (w - leaf_weight self (curr self)))%Q.
Proof.
  intros [Hwf Hsum Htotal].
  pose proof (wf_curr _ Hwf) as Hc. pose proof (wf_capacity _ Hwf) as Hcap.
  pose proof (wf_depth _ Hwf) as Hd. pose proof (leaves_length _ Hwf) as Hll.
  destruct (add_slots self w Hwf) as (v' & Hup & Hadd & Hwf').
  destruct (update_slots self (curr self) w Hwf ltac:(lia))
    as (v'' & Hup' & _ & Hlv & Hw & Hframe & Hroot & Hinv).
  assert (v'' = v') by (rewrite Hup in Hup'; inversion Hup'; reflexivity). subst v''.
  eexists. split; [exact Hadd|]. split.
  - constructor; [exact Hwf'|simpl; auto|].
    change (weight_at v' 0 == Qsum (leaves (set_value self v')))%Q.
    rewrite Hlv, Hroot, Qsum_insert by lia.
    rewrite leaf_weight_leaves by lia. rewrite Htotal. reflexivity.
  - simpl. repeat split; try reflexivity; assumption.
Qed.

Lemma do_calls_sums_inv (cs : list call) :
  forall self, sums_inv self -> Forall (leaf_call (tree_depth self)) cs ->
  exists self', do_calls self cs = Ok self' /\ sums_inv self'.
Proof.
  induction cs as [|c cs IH]; intros self Hinv Hcs.
  - exists self. split; [reflexivity|assumption].
  - apply Forall_cons in Hcs as [Hc Hcs]. simpl.
    assert (Hstep : exists self1, do_call self c = Ok self1 /\ sums_inv self1 /\
                                  tree_depth self1 = tree_depth self).
    { destruct c as [slot w|w]; simpl in *.
      - destruct (update_sums_inv self slot w Hinv Hc) as (v' & Hup & Hinv').
        exists (set_value self v'). split; [exact Hup|]. split; [exact Hinv'|reflexivity].
      - destruct (add_sums_inv self w Hinv) as (self1 & Hadd & Hinv1 & _ & Hd1 & _).
        exists self1. split; [exact Hadd|]. split; assumption. }
    destruct Hstep as (self1 & Hdo & Hinv1 & Hd1). rewrite Hdo. simpl.
    rewrite <- Hd1 in Hcs. apply IH; assumption.
Qed.

(** X4. On a well-formed tree [add] never raises, whatever the weight: it
    stores the weight in the slot under the cursor, changes no other slot,
    advances the cursor modulo the capacity and saturates the count. *)
Theorem add_writes_cursor_slot :
  forall (self : SumTree) (w : Q),
  well_formed self ->
  exists self',
    add self w = Ok self' /\
    well_formed self' /\
    leaf_weight self' (curr self) = w /\
    (forall s, 0 <= s -> s <> curr self -> leaf_weight self' s = leaf_weight self s) /\
    curr self' = (curr self + 1) mod max_size self /\
    size self' = Z.min (size self + 1) (max_size self).
Proof.
  intros self w Hwf.
  pose proof (wf_curr _ Hwf) as Hc. pose proof (wf_capacity _ Hwf) as Hcap.
  destruct (add_slots self w Hwf) as (v' & Hup & Hadd & Hwf').
  destruct (update_slots self (curr self) w Hwf ltac:(lia))
    as (v'' & Hup' & _ & _ & Hw & Hframe & _).
  assert (v'' = v') by (rewrite Hup in Hup'; inversion Hup'; reflexivity). subst v''.
  eexists. split; [exact Hadd|]. split; [exact Hwf'|].
  split; [exact Hw|]. split; [exact Hframe|]. split; reflexivity.
Qed.

Lemma add_writes_cursor_slot_witness :
  exists self',
    add tree_1234 (-3)%Q = Ok self' /\
    well_formed self' /\
    leaf_weight self' (curr tree_1234) = (-3)%Q /\
    (forall s, 0 <= s -> s <> curr tree_1234 ->
       leaf_weight self' s = leaf_weight tree_1234 s) /\
    curr self' = (curr tree_1234 + 1) mod max_size tree_1234 /\
    size self' = Z.min (size tree_1234 + 1) (max_size tree_1234).
Proof.
  apply (add_writes_cursor_slot tree_1234 (-3)%Q).
  constructor; simpl; lia.
Defined.

Lemma run_shape (capacity : Z) (cs : list call) (self : SumTree) :
  run capacity cs = Ok self ->
  1 <= capacity /\
  well_formed self /\
  max_size self = capacity /\
  tree_depth self = Z.log2_up capacity /\
  curr self = count_appends cs mod capacity /\
  size self = Z.min (count_appends cs) capacity.
Proof.
  intros Hrun. unfold run in Hrun.
  destruct (__init__ capacity) as [self0|e] eqn:Hinit; simpl in Hrun; [|discriminate].
  destruct (init_well_formed _ _ Hinit) as [Hwf0 Hmax0].
  assert (Hfresh : 1 <= capacity /\ tree_depth self0 = Z.log2_up capacity /\
                   curr self0 = 0 /\ size self0 = 0).
  { revert Hinit. unfold __init__, ceil_log2.
    destruct (Z.leb_spec capacity 0); [discriminate|]. simpl.
    intros E; inversion E; subst self0. simpl. repeat split; lia. }
  destruct Hfresh as (Hcap & Hd0 & Hc0 & Hs0).
  destruct (do_calls_well_formed cs _ _ Hwf0 Hrun) as (Hwf & Hm & Hd & Hc & Hs).
  rewrite Hc0, Hs0, Hmax0 in *. simpl in *.
  split; [exact Hcap|]. split; [exact Hwf|]. split; [exact Hm|].
  split; [congruence|]. split; assumption.
Qed.

(** X5. Ring occupancy (I3).  Whenever a sequence of calls on a fresh tree
    returns, the tree is well formed, the capacity and the depth are those of
    the construction, the cursor is the number of [add] calls modulo the
    capacity and the count is that number capped at the capacity. *)
Theorem ring_occupancy :
  forall (capacity : Z) (cs : list call) (self : SumTree),
  run capacity cs = Ok self ->
  well_formed self /\
  max_size self = capacity /\
  tree_depth self = Z.log2_up capacity /\
  curr self = count_appends cs mod capacity /\
  size self = Z.min (count_appends cs) capacity.
Proof.
  intros capacity cs self Hrun. apply (run_shape capacity cs self Hrun).
Qed.

Lemma ring_occupancy_witness :
  exists self,
    run 3 [Append 1; Update 2 5; Append 7; Append 0; Append 2]%Q = Ok self /\
    well_formed self /\
    max_size self = 3 /\
    tree_depth self = Z.log2_up 3 /\
    curr self = count_appends [Append 1; Update 2 5; Append 7; Append 0; Append 2]%Q mod 3 /\
    size self = Z.min (count_appends [Append 1; Update 2 5; Append 7; Append 0; Append 2]%Q) 3.
Proof.
  eexists. split; [vm_compute; reflexivity|].
  apply (ring_occupancy 3 [Append 1; Update 2 5; Append 7; Append 0; Append 2]%Q).
  vm_compute. reflexivity.
Defined.

(** ** Sums and positions modulo the capacity *)

Lemma Qsum_app (l1 l2 : list Q) : (Qsum (l1 ++ l2) == Qsum l1 + Qsum l2)%Q.
Proof.
  induction l1 as [|x l1 IH]; simpl; [ring|]. rewrite IH. ring.
Qed.

Lemma mod_window_ne (c i n : Z) :
  0 < n - i < c -> i mod c <> n mod c.
Proof.
  intros H E.
  assert (Hz : (n - i) mod c = 0).
  { rewrite Zminus_mod, E, Z.sub_diag. apply Z.mod_0_l. lia. }
  rewrite Z.mod_small in Hz by lia. lia.
Qed.

(** ** What a node stores and where [find] lands *)

Lemma Qsum_take_S (l : list Q) (k : nat) (x : Q) :
  l !! k = Some x -> (Qsum (take (S k) l) == Qsum (take k l) + x)%Q.
Proof.
  intros H. rewrite (take_S_r l k x H), Qsum_app. simpl. ring.
Qed.

Lemma prefix_sum_succ (self : SumTree) (s : Z) :
  well_formed self -> 0 <= s < 2 ^ tree_depth self ->
  (prefix_sum self (s + 1) == prefix_sum self s + leaf_weight self s)%Q.
Proof.
  intros Hwf Hs. pose proof (leaves_length _ Hwf) as Hll.
  pose proof (wf_depth _ Hwf) as Hd. unfold prefix_sum.
  destruct (lookup_lt_is_Some_2 (leaves self) (Z.to_nat s) ltac:(lia)) as [x Hx].
  replace (Z.to_nat (s + 1)) with (S (Z.to_nat s)) by lia.
  rewrite (Qsum_take_S _ _ _ Hx). rewrite leaf_weight_leaves by lia.
  rewrite Hx. reflexivity.
Qed.

Lemma prefix_sum_0 (self : SumTree) : prefix_sum self 0 = 0%Q.
Proof. reflexivity. Qed.

(** Under I1 the node [k] of level [j] holds the sum of the [2^h] leaves below
    it, where [h] is its height. *)
Lemma node_sum (self : SumTree) :
  well_formed self -> sum_invariant self ->
  forall (h : nat) (j k : Z),
  0 <= j -> j + Z.of_nat h = tree_depth self -> 0 <= k < 2 ^ j ->
  (weight_at (value self) (2 ^ j - 1 + k)
   == prefix_sum self ((k + 1) * 2 ^ Z.of_nat h)
      - prefix_sum self (k * 2 ^ Z.of_nat h))%Q.
Proof.
  intros Hwf Hsum. pose proof (wf_depth _ Hwf) as Hd.
  induction h as [|h IH]; intros j k Hj Hjh Hk.
  - change (2 ^ Z.of_nat 0) with 1. rewrite !Z.mul_1_r.
    assert (j = tree_depth self) by lia. subst j.
    rewrite prefix_sum_succ by assumption. unfold leaf_weight.
    replace (k + 2 ^ tree_depth self - 1) with (2 ^ tree_depth self - 1 + k) by lia.
    ring.
  - pose proof (pow2_succ j Hj) as Hj1. pose proof (pow2_pos j Hj) as Hj0.
    pose proof (pow2_le (j + 1) (tree_depth self) ltac:(lia)) as Hle.
    rewrite (Hsum (2 ^ j - 1 + k)) by lia.
    replace (2 * (2 ^ j - 1 + k) + 1) with (2 ^ (j + 1) - 1 + 2 * k) by lia.
    replace (2 * (2 ^ j - 1 + k) + 2) with (2 ^ (j + 1) - 1 + (2 * k + 1)) by lia.
    rewrite (IH (j + 1) (2 * k)) by lia.
    rewrite (IH (j + 1) (2 * k + 1)) by lia.
    rewrite Nat2Z.inj_succ, Z.pow_succ_r by lia.
    replace ((k + 1) * (2 * 2 ^ Z.of_nat h)) with ((2 * k + 1 + 1) * 2 ^ Z.of_nat h) by ring.
    replace (k * (2 * 2 ^ Z.of_nat h)) with (2 * k * 2 ^ Z.of_nat h) by ring.
    ring.
Qed.

(** The descent from the node [k] of level [j]: it returns a slot below that
    node, and the remaining target falls into the cumulative range of the
    slot. *)
Lemma find_descent (self : SumTree) :
  well_formed self -> sum_invariant self ->
  forall (h fuel : nat) (j k : Z) (t : Q),
  0 <= j -> j + Z.of_nat h = tree_depth self -> 0 <= k < 2 ^ j ->
  (h < fuel)%nat ->
  exists s,
    _find_helper fuel self t (2 ^ j - 1 + k) = Some (Ok (s, leaf_weight self s)) /\
    k * 2 ^ Z.of_nat h <= s < (k + 1) * 2 ^ Z.of_nat h /\
    ((t <= weight_at (value self) (2 ^ j - 1 + k))%Q ->
     (t + prefix_sum self (k * 2 ^ Z.of_nat h) <= prefix_sum self (s + 1))%Q) /\
    ((0 < t)%Q ->
     (prefix_sum self s < t + prefix_sum self (k * 2 ^ Z.of_nat h))%Q) /\
    (nonneg_weights self -> (t <= 0)%Q -> s = k * 2 ^ Z.of_nat h).
Proof.
  intros Hwf Hsum. pose proof (wf_depth _ Hwf) as Hd.
  destruct (well_formed_length _ Hwf) as [Hn Hp2].
  pose proof (wf_length _ Hwf) as Hlen.
  induction h as [|h IH]; intros fuel j k t Hj Hjh Hk Hfuel;
    (destruct fuel as [|fuel]; [lia|]).
  - assert (j = tree_depth self) by lia. subst j.
    change (2 ^ Z.of_nat 0) with 1. rewrite !Z.mul_1_r.
    exists k. simpl.
    destruct (Z.gtb_spec (2 * (2 ^ tree_depth self - 1 + k) + 1) (tree_size self - 1));
      [|lia].
    rewrite getitem_in by lia. simpl. unfold leaf_weight.
    replace (2 ^ tree_depth self - 1 + k - 2 ^ tree_depth self + 1) with k by lia.
    replace (k + 2 ^ tree_depth self - 1) with (2 ^ tree_depth self - 1 + k) by lia.
    split; [reflexivity|]. split; [lia|].
    pose proof (prefix_sum_succ self k Hwf Hk) as Hps. unfold leaf_weight in Hps.
    replace (k + 2 ^ tree_depth self - 1) with (2 ^ tree_depth self - 1 + k) in Hps by lia.
    split; [intros Ht; rewrite Hps; lra|]. split; [intros Ht; lra|reflexivity].
  - pose proof (pow2_succ j Hj) as Hj1. pose proof (pow2_pos j Hj) as Hj0.
    pose proof (pow2_le (j + 1) (tree_depth self) ltac:(lia)) as Hle.
    pose proof (pow2_pos (Z.of_nat h) ltac:(lia)) as HP.
    rewrite Nat2Z.inj_succ, Z.pow_succ_r by lia.
    set (P := 2 ^ Z.of_nat h) in *.
    replace ((k + 1) * (2 * P)) with ((2 * k + 1 + 1) * P) by ring.
    replace (k * (2 * P)) with (2 * k * P) by ring.
    pose proof (Hsum (2 ^ j - 1 + k) ltac:(lia)) as Hnode.
    replace (2 * (2 ^ j - 1 + k) + 1) with (2 ^ (j + 1) - 1 + 2 * k) in Hnode by lia.
    replace (2 * (2 ^ j - 1 + k) + 2) with (2 ^ (j + 1) - 1 + (2 * k + 1)) in Hnode by lia.
    pose proof (node_sum self Hwf Hsum h (j + 1) (2 * k) ltac:(lia) ltac:(lia) ltac:(lia))
      as Hleft.
    fold P in Hleft.
    simpl.
    destruct (Z.gtb_spec (2 * (2 ^ j - 1 + k) + 1) (tree_size self - 1)); [lia|].
    rewrite getitem_in by lia.
    replace (2 * (2 ^ j - 1 + k) + 1) with (2 ^ (j + 1) - 1 + 2 * k) by lia.
    replace (2 * (2 ^ j - 1 + k) + 2) with (2 ^ (j + 1) - 1 + (2 * k + 1)) by lia.
    destruct (Qle_bool t (weight_at (value self) (2 ^ (j + 1) - 1 + 2 * k))) eqn:E.
    + apply Qle_bool_iff in E.
      destruct (IH fuel (j + 1) (2 * k) t ltac:(lia) ltac:(lia) ltac:(lia) ltac:(lia))
        as (s & Hs & Hrange & Hup & Hlow & Hleftmost).
      fold P in Hrange, Hup, Hlow, Hleftmost.
      exists s. split; [exact Hs|]. split; [lia|].
      split; [intros _; apply Hup; exact E|]. split; [exact Hlow|exact Hleftmost].
    + assert (Hgt : (weight_at (value self) (2 ^ (j + 1) - 1 + 2 * k) < t)%Q).
      { apply Qnot_le_lt. intros Hle'. apply Qle_bool_iff in Hle'. congruence. }
      destruct (IH fuel (j + 1) (2 * k + 1)
                  (t - weight_at (value self) (2 ^ (j + 1) - 1 + 2 * k))%Q
                  ltac:(lia) ltac:(lia) ltac:(lia) ltac:(lia))
        as (s & Hs & Hrange & Hup & Hlow & _).
      fold P in Hrange, Hup, Hlow.
      exists s. split; [exact Hs|]. split; [lia|].
      split; [|split].
      * intros Ht. assert (Hup' := Hup ltac:(lra)). lra.
      * intros Ht. assert (Hlow' := Hlow ltac:(lra)). lra.
      * intros Hnn Ht. exfalso.
        pose proof (Hnn (2 ^ (j + 1) - 1 + 2 * k)). lra.
Qed.

Lemma find_root (self : SumTree) (t : Q) (fuel : nat) :
  well_formed self -> sum_invariant self ->
  tree_depth self < Z.of_nat fuel ->
  exists s,
    _find_helper fuel self t 0 = Some (Ok (s, leaf_weight self s)) /\
    0 <= s < 2 ^ tree_depth self /\
    ((t <= weight_at (value self) 0)%Q -> (t <= prefix_sum self (s + 1))%Q) /\
    ((0 < t)%Q -> (prefix_sum self s < t)%Q) /\
    (nonneg_weights self -> (t <= 0)%Q -> s = 0).
Proof.
  intros Hwf Hsum Hfuel. pose proof (wf_depth _ Hwf) as Hd.
  destruct (find_descent self Hwf Hsum (Z.to_nat (tree_depth self)) fuel 0 0 t
              ltac:(lia) ltac:(lia) ltac:(simpl; lia) ltac:(lia))
    as (s & Hs & Hrange & Hup & Hlow & Hleft).
  rewrite Z2Nat.id in * by lia. rewrite Z.mul_0_l in *. rewrite Z.add_0_l, Z.mul_1_l in Hrange.
  change (2 ^ 0 - 1 + 0) with 0 in *. rewrite prefix_sum_0 in *.
  exists s. split; [exact Hs|]. split; [exact Hrange|].
  split; [intros H; specialize (Hup H); lra|].
  split; [intros H; specialize (Hlow H); lra|exact Hleft].
Qed.

Lemma sum_invariant_1234 : sum_invariant tree_1234.
Proof.
  intros i Hi. simpl in Hi.
  assert (Hcases : i = 0 \/ i = 1 \/ i = 2) by lia.
  destruct Hcases as [->|[->| ->]]; reflexivity.
Defined.

Lemma well_formed_1234 : well_formed tree_1234.
Proof. constructor; simpl; lia. Defined.

Lemma nonneg_1234 : nonneg_weights tree_1234.
Proof.
  intros i. unfold weight_at. simpl. generalize (Z.to_nat i). intros n.
  do 7 (destruct n as [|n]; [simpl; unfold Qle; simpl; lia|]).
  simpl. unfold Qle; simpl; lia.
Defined.




Lemma Qsum_take_mono (l : list Q) :
  Forall (fun x => 0 <= x)%Q l ->
  forall p q : nat, (p <= q)%nat -> (Qsum (take p l) <= Qsum (take q l))%Q.
Proof.
  intros Hl. induction Hl as [|x l Hx Hl IH]; intros p q Hpq.
  - rewrite !take_nil. apply Qle_refl.
  - destruct p as [|p]; destruct q as [|q]; simpl; try lia.
    + apply Qle_refl.
    + assert (H0 := IH 0%nat q ltac:(lia)). rewrite take_0 in H0. simpl in H0. lra.
    + assert (H1 := IH p q ltac:(lia)). lra.
Qed.

Lemma nonneg_leaves (self : SumTree) :
  nonneg_weights self -> Forall (fun x => 0 <= x)%Q (leaves self).
Proof.
  intros Hnn. apply Forall_lookup. intros i x Hi. unfold leaves in Hi.
  rewrite lookup_drop in Hi.
  specialize (Hnn (Z.of_nat (Z.to_nat (2 ^ tree_depth self - 1) + i))).
  unfold weight_at in Hnn. rewrite Nat2Z.id, Hi in Hnn. exact Hnn.
Qed.

Lemma prefix_sum_mono (self : SumTree) (p q : Z) :
  nonneg_weights self -> p <= q ->
  (prefix_sum self p <= prefix_sum self q)%Q.
Proof.
  intros Hnn Hpq. unfold prefix_sum.
  apply Qsum_take_mono; [apply nonneg_leaves; assumption|lia].
Qed.

(** X11. [find] is monotone in its target: on a well-formed tree satisfying
    I1 with non-negative weights, a larger target never returns a smaller
    slot. *)
Theorem find_monotone :
  forall (self : SumTree) (t1 t2 : Q) (fuel : nat),
  well_formed self -> sum_invariant self -> nonneg_weights self ->
  (t1 <= t2)%Q ->
  tree_depth self < Z.of_nat fuel ->
  exists s1 s2,
    find fuel self t1 false = Some (Ok s1) /\
    find fuel self t2 false = Some (Ok s2) /\
    s1 <= s2.
Proof.
  intros self t1 t2 fuel Hwf Hsum Hnn Ht Hfuel.
  destruct (find_root self t1 fuel Hwf Hsum Hfuel) as (s1 & Hs1 & Hr1 & Hup1 & Hlow1 & Hz1).
  destruct (find_root self t2 fuel Hwf Hsum Hfuel) as (s2 & Hs2 & Hr2 & Hup2 & Hlow2 & Hz2).
  exists s1, s2. unfold find. rewrite Hs1, Hs2. simpl.
  split; [reflexivity|]. split; [reflexivity|].
  destruct (Qlt_le_dec 0 t1) as [Hpos|Hneg]; [|rewrite (Hz1 Hnn Hneg); lia].
  destruct (Qlt_le_dec (weight_at (value self) 0) t2) as [Habove|Hbelow].
  - pose proof (find_above_total self t2 fuel Hwf Hsum Hnn Habove Hfuel) as Hlast.
    unfold find in Hlast. rewrite Hs2 in Hlast. simpl in Hlast.
    inversion Hlast. lia.
  - destruct (Z_le_gt_dec s1 s2) as [|Hgt]; [assumption|exfalso].
    specialize (Hup2 Hbelow). specialize (Hlow1 Hpos).
    pose proof (prefix_sum_mono self (s2 + 1) s1 Hnn ltac:(lia)). lra.
Qed.

Lemma find_monotone_witness :
  exists s1 s2,
    find 3 tree_1234 (3 # 2)%Q false = Some (Ok s1) /\
    find 3 tree_1234 (13 # 2)%Q false = Some (Ok s2) /\
    s1 <= s2.
Proof.
  apply (find_monotone tree_1234 (3 # 2)%Q (13 # 2)%Q 3).
  - exact well_formed_1234.
  - exact sum_invariant_1234.
  - exact nonneg_1234.
  - unfold Qle. simpl. lia.
  - simpl. lia.
Defined.

(** ** [max] *)

Lemma Qmax_cases (x y : Q) : Qmax x y = x \/ Qmax x y = y.
Proof.
  unfold Qmax, GenericMinMax.gmax. destruct (x ?= y)%Q; auto.
Qed.

Lemma fold_Qmax_spec (xs : list Q) :
  forall x : Q,
  Forall (fun y => y <= fold_left Qmax xs x)%Q (x :: xs) /\
  fold_left Qmax xs x ∈ x :: xs.
Proof.
  induction xs as [|y xs IH]; intros x; simpl.
  - split; [constructor; [apply Qle_refl|constructor]|apply list_elem_of_here].
  - destruct (IH (Qmax x y)) as [Hall Hin].
    apply Forall_cons in Hall as [Hm Hall]. split.
    + constructor; [|constructor; [|exact Hall]].
      * eapply Qle_trans; [apply Q.le_max_l|exact Hm].
      * eapply Qle_trans; [apply Q.le_max_r|exact Hm].
    + apply elem_of_cons in Hin as [Hin|Hin].
      * rewrite Hin. destruct (Qmax_cases x y) as [-> | ->].
        -- apply list_elem_of_here.
        -- apply list_elem_of_further, list_elem_of_here.
      * do 2 apply list_elem_of_further. exact Hin.
Qed.

Lemma np_max_spec (l : list Q) :
  l <> [] ->
  exists m, np_max l = Ok m /\ Forall (fun y => y <= m)%Q l /\ m ∈ l.
Proof.
  destruct l as [|x xs]; [congruence|]. intros _. simpl.
  eexists. split; [reflexivity|]. apply fold_Qmax_spec.
Qed.

(** The slice [max] scans, in terms of the slots: it starts at slot 2. *)
Lemma max_slice (self : SumTree) :
  well_formed self ->
  slice (value self) (2 ^ tree_depth self + 1) (2 ^ tree_depth self + 1 + size self)
  = take (Z.to_nat (Z.min (size self) (2 ^ tree_depth self - 2)))
         (drop 2 (leaves self)).
Proof.
  intros Hwf. destruct (well_formed_length _ Hwf) as [Hn Hp2].
  pose proof (wf_size _ Hwf) as Hs.
  unfold slice, clip, leaves. rewrite drop_drop.
  destruct (Z.ltb_spec (2 ^ tree_depth self + 1) 0); [lia|].
  destruct (Z.ltb_spec (2 ^ tree_depth self + 1 + size self) 0); [lia|].
  destruct (Z_lt_le_dec 2 (2 ^ tree_depth self)) as [Hbig|Hsmall].
  - f_equal; [lia|]. f_equal. lia.
  - rewrite !drop_ge by lia. rewrite !take_nil. reflexivity.
Qed.

Lemma max_slice_length (self : SumTree) :
  well_formed self ->
  length (take (Z.to_nat (Z.min (size self) (2 ^ tree_depth self - 2)))
               (drop 2 (leaves self)))
  = Z.to_nat (Z.min (size self) (2 ^ tree_depth self - 2)).
Proof.
  intros Hwf. pose proof (leaves_length _ Hwf) as Hll.
  rewrite length_take, length_drop. lia.
Qed.

Lemma pow2_small (d : Z) : 0 <= d -> (2 ^ d <= 2 <-> d <= 1).
Proof.
  intros Hd. split; intros H.
  - destruct (Z_le_gt_dec d 1) as [|Hgt]; [assumption|exfalso].
    pose proof (pow2_le 2 d ltac:(lia)) as Hle. change (2 ^ 2) with 4 in Hle. lia.
  - pose proof (pow2_le d 1 ltac:(lia)) as Hle. change (2 ^ 1) with 2 in Hle. lia.
Qed.

Lemma max_raises (self : SumTree) :
  well_formed self -> size self <> 0 ->
  (max self = Raise ValueError <-> tree_depth self <= 1).
Proof.
  intros Hwf Hsz. pose proof (wf_size _ Hwf) as Hs. pose proof (wf_depth _ Hwf) as Hd.
  pose proof (max_slice_length self Hwf) as Hlen.
  pose proof (pow2_small _ Hd) as Hsmall.
  unfold max. destruct (Z.eqb_spec (size self) 0); [lia|].
  cbv zeta. rewrite (max_slice self Hwf).
  destruct (take _ _) as [|x xs] eqn:E; simpl in *.
  - split; [intros _|reflexivity]. apply Hsmall. lia.
  - split; [discriminate|]. intros Hle. apply Hsmall in Hle. lia.
Qed.

(** X12. [max] on small trees.  For a tree of capacity 1 or 2 that has
    received at least one [add], [max] raises [ValueError] (the scanned slice
    is empty); for every larger capacity it does not. *)
Theorem max_raises_on_small_trees :
  forall (capacity : Z) (cs : list call) (self : SumTree),
  run capacity cs = Ok self ->
  size self <> 0 ->
  (max self = Raise ValueError <-> capacity <= 2).
Proof.
  intros capacity cs self Hrun Hsz.
  destruct (run_shape capacity cs self Hrun) as (Hcap & Hwf & _ & Hd & _).
  rewrite (max_raises self Hwf Hsz), Hd.
  rewrite <- (Z.log2_up_le_pow2 capacity 1) by lia. reflexivity.
Qed.

Lemma max_raises_on_small_trees_witness :
  exists self,
    run 2 (appends [3; 8]%Q) = Ok self /\
    (max self = Raise ValueError <-> 2 <= 2).
Proof.
  eexists. split; [vm_compute; reflexivity|].
  apply (max_raises_on_small_trees 2 (appends [3; 8]%Q)).
  - vm_compute. reflexivity.
  - simpl. discriminate.
Defined.

(** X13. What [max] returns.  On a well-formed tree of depth at least 2 with
    a non-zero count, [max] returns the largest weight among the slots
    [2 .. 2 + count - 1] that exist (below [2^depth]): it is at least each of
    them and is the weight of one of them.  Slots 0 and 1 are not looked at. *)
Theorem max_scans_from_slot_2 :
  forall self : SumTree,
  well_formed self -> size self <> 0 -> 2 <= tree_depth self ->
  exists m,
    max self = Ok m /\
    (forall s, 2 <= s < 2 + size self -> s < 2 ^ tree_depth self ->
       (leaf_weight self s <= m)%Q) /\
    (exists s, 2 <= s < 2 + size self /\ s < 2 ^ tree_depth self /\
               leaf_weight self s = m).
Proof.
  intros self Hwf Hsz Hdepth.
  pose proof (wf_size _ Hwf) as Hs. pose proof (wf_depth _ Hwf) as Hd.
  pose proof (leaves_length _ Hwf) as Hll.
  pose proof (max_slice_length self Hwf) as Hlen.
  pose proof (pow2_le 2 (tree_depth self) ltac:(lia)) as Hp4. change (2 ^ 2) with 4 in Hp4.
  unfold max. destruct (Z.eqb_spec (size self) 0); [lia|].
  cbv zeta. rewrite (max_slice self Hwf).
  set (K := Z.to_nat (Z.min (size self) (2 ^ tree_depth self - 2))) in *.
  set (l := take K (drop 2 (leaves self))) in *.
  assert (Hne : l <> []).
  { intros E. rewrite E in Hlen. simpl in Hlen. unfold K in Hlen. lia. }
  assert (Hl : forall i : nat, (i < K)%nat ->
             l !! i = Some (leaf_weight self (2 + Z.of_nat i))).
  { intros i Hi. unfold l. rewrite lookup_take_lt by assumption. rewrite lookup_drop.
    rewrite leaf_weight_leaves by lia.
    replace (Z.to_nat (2 + Z.of_nat i)) with (2 + i)%nat by lia.
    destruct (lookup_lt_is_Some_2 (leaves self) (2 + i) ltac:(unfold K in Hi; lia))
      as [x Hx].
    rewrite Hx. reflexivity. }
  destruct (np_max_spec l Hne) as (m & Hm & Hall & Hin).
  exists m. split; [exact Hm|]. split.
  - intros s Hs1 Hs2. rewrite Forall_lookup in Hall.
    apply (Hall (Z.to_nat (s - 2))).
    rewrite Hl by (unfold K; lia). do 2 f_equal. lia.
  - apply list_elem_of_lookup in Hin as [i Hi].
    assert (HiK : (i < K)%nat) by (apply lookup_lt_Some in Hi; lia).
    rewrite Hl in Hi by assumption. inversion Hi.
    exists (2 + Z.of_nat i). unfold K in HiK. repeat split; lia.
Qed.

Lemma max_scans_from_slot_2_witness :
  exists m,
    max tree_1234 = Ok m /\
    (forall s, 2 <= s < 2 + size tree_1234 -> s < 2 ^ tree_depth tree_1234 ->
       (leaf_weight tree_1234 s <= m)%Q) /\
    (exists s, 2 <= s < 2 + size tree_1234 /\ s < 2 ^ tree_depth tree_1234 /\
               leaf_weight tree_1234 s = m).
Proof.
  apply (max_scans_from_slot_2 tree_1234).
  - exact well_formed_1234.
  - simpl. discriminate.
  - simpl. lia.
Defined.

(** ** [__str__] *)

Lemma level_slice (v : list Q) (i d : Z) :
  Z.of_nat (length v) = 2 ^ (d + 1) - 1 -> 0 <= i <= d ->
  slice v (2 ^ i - 1) (2 ^ (i + 1) - 1)
  = take (Z.to_nat (2 ^ i)) (drop (Z.to_nat (2 ^ i - 1)) v).
Proof.
  intros Hlen Hi. pose proof (pow2_pos i ltac:(lia)) as Hp.
  pose proof (pow2_succ i ltac:(lia)) as Hs.
  pose proof (pow2_le (i + 1) (d + 1) ltac:(lia)) as Hle.
  unfold slice, clip.
  destruct (Z.ltb_spec (2 ^ i - 1) 0); [lia|].
  destruct (Z.ltb_spec (2 ^ (i + 1) - 1) 0); [lia|].
  f_equal; [lia|]. f_equal. lia.
Qed.

Lemma levels_concat (v : list Q) (d : Z) :
  Z.of_nat (length v) = 2 ^ (d + 1) - 1 -> 0 <= d ->
  forall k : nat, Z.of_nat k <= d + 1 ->
  concat (map (fun i => slice v (2 ^ i - 1) (2 ^ (i + 1) - 1)) (seqZ 0 (Z.of_nat k)))
  = take (Z.to_nat (2 ^ Z.of_nat k - 1)) v.
Proof.
  intros Hlen Hd. induction k as [|k IH]; intros Hk.
  - reflexivity.
  - rewrite seqZ_S, map_app, concat_app, IH by lia. rewrite Z.add_0_l.
    cbn [map concat].
    rewrite app_nil_r, (level_slice v (Z.of_nat k) d Hlen) by lia.
    rewrite take_take_drop. f_equal.
    pose proof (pow2_pos (Z.of_nat k) ltac:(lia)).
    rewrite Nat2Z.inj_succ, Z.pow_succ_r by lia. lia.
Qed.

(** X16. The text of [__str__].  On a well-formed tree [__str__] is one line
    per level [i = 0 .. depth], joined by newlines; line [i] is
    ["depth i:"], a tab, and numpy's rendering [np_str] (whatever numpy makes
    of an array, abbreviated or not) of the slice
    [value[2**i - 1 : 2**(i+1) - 1]], which is never clipped: it holds the
    [2^i] weights of level [i], and the slices put end to end are the whole
    array. *)
Theorem str_lines_are_the_levels :
  forall (np_str : list Q -> String.string) (self : SumTree),
  well_formed self ->
  __str__ np_str self
  = String.concat newline
      (map (fun i => str_line np_str i (level_weights (value self) i))
           (seqZ 0 (tree_depth self + 1))) /\
  (forall i, 0 <= i <= tree_depth self ->
     Z.of_nat (length (level_weights (value self) i)) = 2 ^ i) /\
  concat (map (level_weights (value self)) (seqZ 0 (tree_depth self + 1)))
  = value self.
Proof.
  intros np_str self Hwf. pose proof (wf_depth _ Hwf) as Hd.
  pose proof (wf_length _ Hwf) as Hlen. rewrite (wf_tree_size _ Hwf) in Hlen.
  assert (Hlevel : forall i, 0 <= i <= tree_depth self ->
            slice (value self) (2 ^ i - 1) (2 ^ (i + 1) - 1)
            = level_weights (value self) i).
  { intros i Hi. apply (level_slice _ _ _ Hlen Hi). }
  split; [|split].
  - unfold __str__, str_rows, py_range. rewrite map_map. f_equal.
    apply map_ext_in. intros i Hi. apply list_elem_of_In, elem_of_seqZ in Hi.
    cbn [fst snd]. rewrite Hlevel by lia. reflexivity.
  - intros i Hi. unfold level_weights.
    pose proof (pow2_pos i ltac:(lia)) as Hp.
    pose proof (pow2_succ i ltac:(lia)) as Hs.
    pose proof (pow2_le (i + 1) (tree_depth self + 1) ltac:(lia)) as Hle.
    rewrite length_take, length_drop. lia.
  - rewrite <- (map_ext_in (fun i => slice (value self) (2 ^ i - 1) (2 ^ (i + 1) - 1))).
    + replace (tree_depth self + 1)
        with (Z.of_nat (Z.to_nat (tree_depth self + 1))) by lia.
      rewrite (levels_concat (value self) (tree_depth self) Hlen Hd) by lia.
      rewrite Z2Nat.id by lia. apply take_ge. lia.
    + intros i Hi. apply list_elem_of_In, elem_of_seqZ in Hi. apply Hlevel. lia.
Qed.

Lemma str_lines_are_the_levels_witness :
  __str__ (fun _ => "[...]"%string) tree_1234
  = String.concat newline
      (map (fun i => str_line (fun _ => "[...]"%string) i
                       (level_weights (value tree_1234) i))
           (seqZ 0 (tree_depth tree_1234 + 1))) /\
  (forall i, 0 <= i <= tree_depth tree_1234 ->
     Z.of_nat (length (level_weights (value tree_1234) i)) = 2 ^ i) /\
  concat (map (level_weights (value tree_1234)) (seqZ 0 (tree_depth tree_1234 + 1)))
  = value tree_1234.
Proof.
  apply (str_lines_are_the_levels (fun _ => "[...]"%string) tree_1234).
  exact well_formed_1234.
Defined.

(** * The float64 program *)

(** ** Arrays and the upward walk in float64 *)

Lemma real_zero : real 0%float = 0%Q.
Proof. reflexivity. Qed.

Lemma finite_zero : finite 0%float.
Proof. exists 0%Q. reflexivity. Qed.

Lemma exact_add_spec (x y : float) :
  exact_add x y = true ->
  finite x /\ finite y /\ finite (x + y)%float /\
  (real (x + y)%float == real x + real y)%Q.
Proof.
  unfold exact_add, finite, real.
  destruct (real_of x) as [a|]; [|discriminate].
  destruct (real_of y) as [b|]; [|discriminate].
  destruct (real_of (x + y)%float) as [c|]; [|discriminate].
  intros E. apply Qeq_bool_iff in E. simpl. repeat split; eauto.
Qed.

Lemma exact_sub_spec (x y : float) :
  exact_sub x y = true ->
  finite x /\ finite y /\ finite (x - y)%float /\
  (real (x - y)%float == real x - real y)%Q.
Proof.
  unfold exact_sub, finite, real.
  destruct (real_of x) as [a|]; [|discriminate].
  destruct (real_of y) as [b|]; [|discriminate].
  destruct (real_of (x - y)%float) as [c|]; [|discriminate].
  intros E. apply Qeq_bool_iff in E. simpl. repeat split; eauto.
Qed.

Lemma float_getitem_in (v : list float) (i : Z) :
  0 <= i < Z.of_nat (length v) -> Float64.getitem v i = Ok (float_at v i).
Proof.
  intros H. unfold Float64.getitem, float_at. rewrite np_index_in by assumption. simpl.
  destruct (v !! Z.to_nat i) eqn:E; [reflexivity|].
  apply lookup_ge_None in E. lia.
Qed.

Lemma float_setitem_in (v : list float) (i : Z) (x : float) :
  0 <= i < Z.of_nat (length v) ->
  Float64.setitem v i x = Ok (<[Z.to_nat i := x]> v).
Proof.
  intros H. unfold Float64.setitem. rewrite np_index_in by assumption. reflexivity.
Qed.

Lemma float_propagate_loop (v : list float) (diff : float) (idx : Z) :
  Float64.propagate v diff idx =
  if 0 <=? (idx - 1) / 2 then
    let father := (idx - 1) / 2 in
    let* x := Float64.getitem v father in
    let* v' := Float64.setitem v father (x + diff)%float in
    Float64.propagate v' diff father
  else Ok v.
Proof.
  simp propagate.
  destruct (Z_le_dec 0 ((idx - 1) / 2)) as [H|H]; simpl.
  - destruct (Z.leb_spec 0 ((idx - 1) / 2)); [|lia].
    destruct (Float64.getitem v ((idx - 1) / 2)); simpl; [|reflexivity].
    destruct (Float64.setitem v ((idx - 1) / 2) (a + diff)%float); reflexivity.
  - destruct (Z.leb_spec 0 ((idx - 1) / 2)); [lia|reflexivity].
Qed.

Lemma float_propagate_stop (v : list float) (diff : float) (idx : Z) :
  idx <= 0 -> Float64.propagate v diff idx = Ok v.
Proof.
  intros H. rewrite float_propagate_loop.
  destruct (Z.leb_spec 0 ((idx - 1) / 2)); [lia|reflexivity].
Qed.

Lemma float_propagate_step (v : list float) (diff : float) (idx : Z) :
  1 <= idx < Z.of_nat (length v) ->
  Float64.propagate v diff idx =
  Float64.propagate
    (<[Z.to_nat ((idx - 1) / 2) := (float_at v ((idx - 1) / 2) + diff)%float]> v)
    diff ((idx - 1) / 2).
Proof.
  intros H. rewrite float_propagate_loop.
  destruct (Z.leb_spec 0 ((idx - 1) / 2)); [|lia].
  cbv zeta. rewrite float_getitem_in by lia. simpl.
  rewrite float_setitem_in by lia. reflexivity.
Qed.

Lemma exact_walk_loop (v : list float) (diff : float) (idx : Z) :
  exact_walk v diff idx =
  if 0 <=? (idx - 1) / 2 then
    match Float64.getitem v ((idx - 1) / 2) with
    | Ok x =>
        match Float64.setitem v ((idx - 1) / 2) (x + diff)%float with
        | Ok v' => exact_add x diff && exact_walk v' diff ((idx - 1) / 2)
        | Raise _ => false
        end
    | Raise _ => false
    end
  else true.
Proof.
  simp exact_walk.
  destruct (Z_le_dec 0 ((idx - 1) / 2)) as [H|H]; simpl.
  - destruct (Z.leb_spec 0 ((idx - 1) / 2)); [|lia].
    destruct (Float64.getitem v ((idx - 1) / 2)); simpl; [|reflexivity].
    destruct (Float64.setitem v ((idx - 1) / 2) (a + diff)%float); reflexivity.
  - destruct (Z.leb_spec 0 ((idx - 1) / 2)); [lia|reflexivity].
Qed.

Lemma exact_walk_step (v : list float) (diff : float) (idx : Z) :
  1 <= idx < Z.of_nat (length v) ->
  exact_walk v diff idx =
  exact_add (float_at v ((idx - 1) / 2)) diff &&
  exact_walk
    (<[Z.to_nat ((idx - 1) / 2) := (float_at v ((idx - 1) / 2) + diff)%float]> v)
    diff ((idx - 1) / 2).
Proof.
  intros H. rewrite exact_walk_loop.
  destruct (Z.leb_spec 0 ((idx - 1) / 2)); [|lia].
  rewrite float_getitem_in by lia. rewrite float_setitem_in by lia. reflexivity.
Qed.

(** The walk returns from every position of the array, keeps its length and
    writes only to ancestors, whatever the rounding. *)
Lemma float_propagate_frame (diff : float) (idx : Z) :
  forall v : list float,
  0 <= idx < Z.of_nat (length v) ->
  exists v',
    Float64.propagate v diff idx = Ok v' /\
    length v' = length v /\
    (forall j : nat, (idx - 1) / 2 < Z.of_nat j -> v' !! j = v !! j).
Proof.
  pattern idx. apply walk_ind. clear idx. intros idx IH v Hidx.
  destruct (Z.eq_dec idx 0) as [->|Hnz].
  - exists v. rewrite float_propagate_stop by lia. auto.
  - set (f := (idx - 1) / 2) in *.
    assert (Hf : 0 <= f < idx) by (unfold f; lia).
    set (v1 := <[Z.to_nat f := (float_at v f + diff)%float]> v).
    assert (Hlen1 : length v1 = length v) by (unfold v1; apply length_insert).
    destruct (IH ltac:(lia) v1 ltac:(lia)) as (v' & Hp & Hlen & Hsame).
    exists v'. rewrite float_propagate_step by lia. fold f. fold v1.
    split; [exact Hp|]. split; [congruence|].
    intros j Hj. rewrite Hsame by lia. unfold v1.
    apply list_lookup_insert_ne. lia.
Qed.

(** ** The exact embedding simulates the float64 program while no operation
    rounds *)

Lemma weight_at_reals (fv : list float) (i : Z) :
  weight_at (map real fv) i = real (float_at fv i).
Proof.
  unfold weight_at, float_at. rewrite list_lookup_fmap.
  destruct (fv !! Z.to_nat i); reflexivity.
Qed.

Lemma same_weights_insert (q1 q2 : list Q) (k : nat) (a b : Q) :
  same_weights q1 q2 -> (a == b)%Q ->
  same_weights (<[k := a]> q1) (<[k := b]> q2).
Proof.
  intros [Hlen Hw] Hab. split; [rewrite !length_insert; exact Hlen|].
  assert (Hnat : forall n : nat,
            (default 0 (<[k := a]> q1 !! n) == default 0 (<[k := b]> q2 !! n))%Q).
  { intros n. specialize (Hw (Z.of_nat n)). unfold weight_at in Hw.
    rewrite Nat2Z.id in Hw.
    destruct (Nat.eq_dec n k) as [->|Hne].
    - destruct (Nat.lt_ge_cases k (length q1)) as [Hlt|Hge].
      + rewrite !list_lookup_insert_eq by lia. exact Hab.
      + rewrite !list_insert_ge by lia. exact Hw.
    - rewrite !list_lookup_insert_ne by lia. exact Hw. }
  intros i. unfold weight_at. apply Hnat.
Qed.

Lemma related_insert (fv : list float) (qv : list Q) (k : nat) (x : float) (q : Q) :
  related fv qv -> finite x -> (q == real x)%Q ->
  related (<[k := x]> fv) (<[k := q]> qv).
Proof.
  intros [Hfin Hsame] Hx Hq. split.
  - destruct (Nat.lt_ge_cases k (length fv)) as [Hlt|Hge].
    + apply Forall_insert; assumption.
    + rewrite list_insert_ge by lia. exact Hfin.
  - rewrite list_fmap_insert. apply same_weights_insert; assumption.
Qed.

Lemma related_length (fv : list float) (qv : list Q) :
  related fv qv -> length qv = length fv.
Proof. intros [_ [Hlen _]]. rewrite length_map in Hlen. exact Hlen. Qed.

Lemma related_at (fv : list float) (qv : list Q) (i : Z) :
  related fv qv -> (weight_at qv i == real (float_at fv i))%Q.
Proof. intros [_ [_ Hw]]. rewrite <- weight_at_reals. apply Hw. Qed.

(** The walk: as long as each addition is exact, the float64 array and the
    array of rationals stay related. *)
Lemma sim_propagate (fd : float) (qd : Q) :
  (qd == real fd)%Q ->
  forall (idx : Z) (fv : list float) (qv : list Q),
  idx < Z.of_nat (length fv) ->
  related fv qv ->
  exact_walk fv fd idx = true ->
  exists fv' qv',
    Float64.propagate fv fd idx = Ok fv' /\
    propagate qv qd idx = Ok qv' /\
    related fv' qv'.
Proof.
  intros Hd idx. pattern idx. apply walk_ind. clear idx.
  intros idx IH fv qv Hidx Hrel Hexact.
  pose proof (related_length _ _ Hrel) as Hlen.
  destruct (Z_lt_le_dec idx 1) as [Hstop|Hgo].
  - exists fv, qv. rewrite float_propagate_stop, propagate_stop by lia. auto.
  - set (f := (idx - 1) / 2) in *.
    assert (Hf : 0 <= f < idx) by (unfold f; lia).
    rewrite exact_walk_step in Hexact by lia. fold f in Hexact.
    apply andb_true_iff in Hexact as [Hadd Hwalk].
    apply exact_add_spec in Hadd as (_ & _ & Hfin & Hsum).
    rewrite float_propagate_step, propagate_step by lia. fold f.
    apply IH; try lia.
    + rewrite length_insert. lia.
    + apply related_insert; try assumption.
      rewrite Hsum, Hd, (related_at fv qv f Hrel). reflexivity.
    + exact Hwalk.
Qed.

Lemma sim_update (fself : Float64.SumTree) (qself : SumTree) (slot : Z) (w : float) :
  sim fself qself ->
  exact_update fself slot w = true ->
  exists fself' qself',
    Float64.update fself slot w = Ok fself' /\
    update qself slot (real w) = Ok qself' /\
    sim fself' qself'.
Proof.
  intros (Hm & Hd & Hts & Hc & Hs & Hrel) Hexact.
  pose proof (related_length _ _ Hrel) as Hlen.
  unfold exact_update in Hexact. unfold Float64.update, update. rewrite Hd.
  set (idx := slot + 2 ^ Float64.tree_depth fself - 1) in *.
  unfold Float64.getitem, Float64.setitem, getitem, setitem in *. rewrite Hlen.
  destruct (np_index (length (Float64.value fself)) idx) as [k|e] eqn:Hk;
    simpl in *; [|discriminate].
  apply np_index_bound in Hk as (Hklt & Hrange & _).
  destruct (Float64.value fself !! k) as [old|] eqn:Hold; [|discriminate].
  destruct (lookup_lt_is_Some_2 (value qself) k ltac:(lia)) as [oq Hoq].
  rewrite Hoq. simpl.
  apply andb_true_iff in Hexact as [Hsub Hwalk].
  apply exact_sub_spec in Hsub as (Hfw & _ & _ & Hdiff).
  assert (Hoq' : (oq == real old)%Q).
  { pose proof (related_at _ _ (Z.of_nat k) Hrel) as H.
    unfold weight_at, float_at in H. rewrite Nat2Z.id, Hoq, Hold in H. exact H. }
  destruct (sim_propagate (w - old)%float (real w - oq)%Q
              ltac:(rewrite Hdiff, Hoq'; reflexivity) idx
              (<[k := w]> (Float64.value fself)) (<[k := real w]> (value qself)))
    as (fv' & qv' & Hfp & Hqp & Hrel').
  - rewrite length_insert. lia.
  - apply related_insert; [assumption|assumption|reflexivity].
  - exact Hwalk.
  - rewrite Hfp, Hqp. simpl. do 2 eexists. split; [reflexivity|].
    split; [reflexivity|]. unfold sim. simpl. auto 10.
Qed.

Lemma sim_call (fself fself' : Float64.SumTree) (qself : SumTree) (c : Float64.call) :
  sim fself qself ->
  exact_call fself c = true ->
  Float64.do_call fself c = Ok fself' ->
  exists qself', do_call qself (real_call c) = Ok qself' /\ sim fself' qself'.
Proof.
  intros Hsim Hexact Hdo. destruct c as [slot w|w]; simpl in *.
  - destruct (sim_update fself qself slot w Hsim Hexact) as (f1 & q1 & Hf & Hq & Hsim1).
    assert (f1 = fself') by congruence. subst f1. eauto.
  - destruct (sim_update fself qself (Float64.curr fself) w Hsim Hexact)
      as (f1 & q1 & Hf & Hq & Hsim1).
    unfold Float64.add in Hdo. rewrite Hf in Hdo. simpl in Hdo.
    destruct Hsim as (_ & _ & _ & Hc & _).
    unfold add. rewrite Hc, Hq. simpl.
    destruct Hsim1 as (Hm1 & Hd1 & Hts1 & Hc1 & Hs1 & Hrel1).
    rewrite Hc1, Hm1, Hs1.
    destruct (py_mod (Float64.curr f1 + 1) (Float64.max_size f1)) as [c|e];
      simpl in *; [|discriminate].
    inversion Hdo; subst fself'; clear Hdo.
    eexists. split; [reflexivity|]. unfold sim. simpl. auto 10.
Qed.

Lemma sim_calls (cs : list Float64.call) :
  forall (fself : Float64.SumTree) (qself : SumTree),
  sim fself qself ->
  exact_calls fself cs = true ->
  exists fself' qself',
    Float64.do_calls fself cs = Ok fself' /\
    do_calls qself (map real_call cs) = Ok qself' /\
    sim fself' qself'.
Proof.
  induction cs as [|c cs IH]; intros fself qself Hsim Hexact; simpl in *.
  - exists fself, qself. auto.
  - apply andb_true_iff in Hexact as [Hc Hrest].
    destruct (Float64.do_call fself c) as [f1|e] eqn:Hdo; [|discriminate].
    destruct (sim_call fself f1 qself c Hsim Hc Hdo) as (q1 & Hq & Hsim1).
    rewrite Hq. simpl. apply IH; assumption.
Qed.

Lemma exact_calls_take (cs : list Float64.call) :
  forall (self : Float64.SumTree) (k : nat),
  exact_calls self cs = true -> exact_calls self (take k cs) = true.
Proof.
  induction cs as [|c cs IH]; intros self k H; destruct k as [|k]; simpl in *;
    try reflexivity.
  apply andb_true_iff in H as [Hc Hrest]. rewrite Hc. simpl.
  destruct (Float64.do_call self c); [apply IH; assumption|discriminate].
Qed.

Lemma sim_init (capacity : Z) :
  1 <= capacity ->
  exists fself qself,
    Float64.__init__ capacity = Ok fself /\
    __init__ capacity = Ok qself /\
    sim fself qself.
Proof.
  intros Hc. unfold Float64.__init__, __init__, ceil_log2.
  destruct (Z.leb_spec capacity 0); [lia|]. simpl.
  do 2 eexists. split; [reflexivity|]. split; [reflexivity|].
  unfold sim. simpl. do 5 (split; [reflexivity|]).
  unfold np_zeros, Float64.np_zeros. split.
  - apply Forall_replicate, finite_zero.
  - rewrite fmap_replicate, real_zero. split; [reflexivity|]. intros i. reflexivity.
Qed.

(** ** What the relation carries over *)

Lemma same_weights_sum_inv (a b : list Q) :
  same_weights a b -> sum_inv a -> sum_inv b.
Proof.
  intros [Hlen Hw] Ha i Hi Hn. rewrite <- Hlen in Hn.
  rewrite <- !Hw. apply Ha; assumption.
Qed.

Lemma Qsum_pointwise (a : list Q) :
  forall b : list Q,
  length a = length b ->
  (forall n : nat, default 0 (a !! n) == default 0 (b !! n))%Q ->
  (Qsum a == Qsum b)%Q.
Proof.
  induction a as [|x a IH]; intros [|y b] Hlen Hw; simpl in *; try discriminate.
  - reflexivity.
  - rewrite (IH b); [|lia|intros n; apply (Hw (S n))].
    specialize (Hw 0%nat). simpl in Hw. rewrite Hw. reflexivity.
Qed.

Lemma same_weights_leaves (a b : list Q) (m : nat) :
  same_weights a b -> (Qsum (drop m a) == Qsum (drop m b))%Q.
Proof.
  intros [Hlen Hw]. apply Qsum_pointwise.
  - rewrite !length_drop. lia.
  - intros n. rewrite !lookup_drop. specialize (Hw (Z.of_nat (m + n))).
    unfold weight_at in Hw. rewrite Nat2Z.id in Hw. exact Hw.
Qed.

Lemma sim_sums_inv (fself : Float64.SumTree) (qself : SumTree) :
  sim fself qself -> sums_inv qself ->
  Forall finite (Float64.value fself) /\ sums_inv (reals fself).
Proof.
  intros (Hm & Hd & Hts & Hc & Hs & [Hfin Hsame]) [Hwf Hsum Htotal].
  split; [exact Hfin|].
  pose proof Hsame as [Hlen Hw].
  constructor.
  - destruct Hwf as [? ? ? ? ? ?]. constructor; simpl; try congruence; try lia.
  - simpl. apply (same_weights_sum_inv _ _ Hsame Hsum).
  - unfold leaves. simpl. rewrite <- Hw, Htotal, <- Hd.
    apply same_weights_leaves. exact Hsame.
Qed.

(** A run of leaf calls without rounding: the float64 tree holds finite
    weights that satisfy I1 as real numbers, with the root the real sum of
    the leaves. *)
Lemma exact_run_sums_inv (capacity : Z) (cs : list Float64.call) :
  1 <= capacity ->
  Forall (float_leaf_call (Z.log2_up capacity)) cs ->
  exact_run capacity cs = true ->
  exists fself,
    Float64.run capacity cs = Ok fself /\
    Float64.max_size fself = capacity /\
    Forall finite (Float64.value fself) /\
    sums_inv (reals fself).
Proof.
  intros Hc Hcs Hexact.
  destruct (sim_init capacity Hc) as (f0 & q0 & Hf0 & Hq0 & Hsim0).
  unfold exact_run in Hexact. rewrite Hf0 in Hexact.
  destruct (sim_calls cs f0 q0 Hsim0 Hexact) as (fself & qself & Hfrun & Hqrun & Hsim).
  pose proof (tree_inv_sums_inv _ (init_tree_inv _ _ Hq0)) as Hinv0.
  assert (Hd0 : tree_depth q0 = Z.log2_up capacity).
  { rewrite init_ok in Hq0 by assumption. inversion Hq0. reflexivity. }
  destruct (do_calls_sums_inv (map real_call cs) q0 Hinv0) as (qself' & Hqrun' & Hinv).
  { rewrite Hd0. apply Forall_fmap. eapply Forall_impl; [exact Hcs|].
    intros [slot w|w] H; exact H. }
  assert (qself' = qself) by congruence. subst qself'.
  exists fself. split; [unfold Float64.run; rewrite Hf0; exact Hfrun|].
  split; [|apply (sim_sums_inv fself qself Hsim Hinv)].
  destruct (init_well_formed _ _ Hq0) as [Hwf0 Hmax0].
  destruct (do_calls_well_formed _ _ _ Hwf0 Hqrun) as (_ & Hmax & _).
  destruct Hsim as (Hm & _). congruence.
Qed.

(** ** Shape and slots of a float64 tree *)

Lemma float_well_formed (self : Float64.SumTree) :
  well_formed (reals self) ->
  0 <= Float64.tree_depth self /\
  Float64.tree_size self = 2 * 2 ^ Float64.tree_depth self - 1 /\
  Z.of_nat (length (Float64.value self)) = 2 * 2 ^ Float64.tree_depth self - 1 /\
  1 <= 2 ^ Float64.tree_depth self.
Proof.
  intros Hwf. destruct (well_formed_length _ Hwf) as [Hn Hp].
  pose proof (wf_depth _ Hwf) as Hd. pose proof (wf_tree_size _ Hwf) as Hts.
  simpl in *. rewrite length_map in Hn. rewrite pow2_succ in Hts by lia. auto.
Qed.

Lemma float_at_zeros (n i : Z) : float_at (Float64.np_zeros n) i = 0%float.
Proof.
  unfold float_at, Float64.np_zeros.
  destruct (replicate (Z.to_nat n) 0%float !! Z.to_nat i) as [x|] eqn:E; [|reflexivity].
  apply lookup_replicate_1 in E as [-> _]. reflexivity.
Qed.

Lemma float_init_well_formed (capacity : Z) :
  1 <= capacity ->
  exists self,
    Float64.__init__ capacity = Ok self /\
    well_formed (reals self) /\
    Float64.max_size self = capacity /\
    Float64.curr self = 0 /\ Float64.size self = 0 /\
    (forall j, float_leaf self j = 0%float).
Proof.
  intros Hc. destruct (sim_init capacity Hc) as (f0 & q0 & Hf0 & Hq0 & Hsim).
  exists f0. split; [exact Hf0|].
  pose proof (tree_inv_sums_inv _ (init_tree_inv _ _ Hq0)) as Hinv0.
  destruct (sim_sums_inv f0 q0 Hsim Hinv0) as [_ [Hwf _ _]].
  split; [exact Hwf|].
  unfold Float64.__init__, ceil_log2 in Hf0.
  destruct (Z.leb_spec capacity 0); [lia|]. simpl in Hf0.
  inversion Hf0; subst f0; clear Hf0. simpl.
  repeat split. intros j. unfold float_leaf. simpl. apply float_at_zeros.
Qed.

(** [update] of a float64 tree at a leaf slot: the slot holds the weight as
    written, whatever the arithmetic of the walk does, and no other leaf
    changes. *)
Lemma float_update_slots (self : Float64.SumTree) (slot : Z) (w : float) :
  well_formed (reals self) -> 0 <= slot < 2 ^ Float64.tree_depth self ->
  exists v',
    Float64.update self slot w = Ok (Float64.set_value self v') /\
    length v' = length (Float64.value self) /\
    float_leaf (Float64.set_value self v') slot = w /\
    (forall s, 0 <= s -> s <> slot ->
       float_leaf (Float64.set_value self v') s = float_leaf self s).
Proof.
  intros Hwf Hslot. destruct (float_well_formed _ Hwf) as (Hd & Hts & Hn & Hp2).
  unfold Float64.update.
  assert (Hidx : 0 <= slot + 2 ^ Float64.tree_depth self - 1
                 < Z.of_nat (length (Float64.value self))) by lia.
  set (idx := slot + 2 ^ Float64.tree_depth self - 1) in *.
  rewrite float_getitem_in, float_setitem_in by assumption. simpl.
  destruct (float_propagate_frame (w - float_at (Float64.value self) idx)%float idx
              (<[Z.to_nat idx := w]> (Float64.value self)))
    as (v' & Hp & Hlen & Hframe).
  { rewrite length_insert. exact Hidx. }
  rewrite Hp. simpl. exists v'. split; [reflexivity|].
  split; [rewrite Hlen; apply length_insert|].
  unfold float_leaf, float_at. simpl. fold idx. split.
  - rewrite Hframe by lia. rewrite list_lookup_insert_eq by lia. reflexivity.
  - intros s Hs Hne. rewrite Hframe by (unfold idx; lia).
    rewrite list_lookup_insert_ne by (unfold idx; lia). reflexivity.
Qed.

Lemma float_add_slots (self : Float64.SumTree) (w : float) :
  well_formed (reals self) ->
  exists self',
    Float64.add self w = Ok self' /\
    well_formed (reals self') /\
    Float64.max_size self' = Float64.max_size self /\
    Float64.tree_depth self' = Float64.tree_depth self /\
    Float64.curr self' = (Float64.curr self + 1) mod Float64.max_size self /\
    Float64.size self' = Z.min (Float64.size self + 1) (Float64.max_size self) /\
    float_leaf self' (Float64.curr self) = w /\
    (forall s, 0 <= s -> s <> Float64.curr self ->
       float_leaf self' s = float_leaf self s).
Proof.
  intros Hwf. pose proof Hwf as [Hd Hts Hlen Hcap Hcur Hsz]. simpl in *.
  destruct (float_update_slots self (Float64.curr self) w Hwf ltac:(lia))
    as (v' & Hu & Hl & Hw & Hf).
  unfold Float64.add. rewrite Hu. simpl. unfold py_mod.
  destruct (Z.eqb_spec (Float64.max_size self) 0); [lia|]. simpl.
  eexists. split; [reflexivity|]. simpl.
  pose proof (Z.mod_pos_bound (Float64.curr self + 1) (Float64.max_size self)
                ltac:(lia)).
  split.
  { constructor; simpl; try assumption; try lia.
    rewrite length_map in *. rewrite Hl. exact Hlen. }
  do 4 (split; [reflexivity|]). split; [exact Hw|exact Hf].
Qed.

Lemma float_do_calls_app (cs1 cs2 : list Float64.call) :
  forall self,
  Float64.do_calls self (cs1 ++ cs2)
  = (let* self' := Float64.do_calls self cs1 in Float64.do_calls self' cs2).
Proof.
  induction cs1 as [|c cs1 IH]; intros self; simpl; [reflexivity|].
  destruct (Float64.do_call self c) as [self1|e]; simpl; [apply IH|reflexivity].
Qed.

(** The state after a run of appends on a fresh float64 tree. *)
Lemma float_appends_state (capacity : Z) :
  1 <= capacity ->
  forall ws : list float,
  exists self,
    Float64.run capacity (Float64.appends ws) = Ok self /\
    well_formed (reals self) /\
    Float64.max_size self = capacity /\
    Float64.curr self = Z.of_nat (length ws) mod capacity /\
    Float64.size self = Z.min (Z.of_nat (length ws)) capacity /\
    (forall (i : nat) (x : float),
       ws !! i = Some x -> Z.of_nat (length ws) - capacity <= Z.of_nat i ->
       float_leaf self (Z.of_nat i mod capacity) = x) /\
    (forall j, 0 <= j -> capacity <= j \/ Z.of_nat (length ws) <= j ->
       float_leaf self j = 0%float).
Proof.
  intros Hc ws. induction ws as [|w ws IH] using rev_ind.
  - destruct (float_init_well_formed capacity Hc)
      as (self & Hinit & Hwf & Hmax & Hcur & Hsz & Hzero).
    exists self. split; [unfold Float64.run; rewrite Hinit; reflexivity|].
    split; [exact Hwf|]. split; [exact Hmax|].
    split; [rewrite Hcur; reflexivity|].
    split; [rewrite Hsz; simpl; lia|].
    split; [intros i x E; discriminate|intros j _ _; apply Hzero].
  - destruct IH as (self & Hrun & Hwf & Hmax & Hcur & Hsz & Hwin & Hzero).
    set (n := Z.of_nat (length ws)) in *.
    destruct (float_add_slots self w Hwf)
      as (self' & Hadd & Hwf' & Hmax' & Hd' & Hcur' & Hsz' & Hw & Hframe).
    assert (Hn1 : Z.of_nat (length (ws ++ [w])) = n + 1).
    { rewrite length_app. simpl. unfold n. lia. }
    pose proof (Z.mod_pos_bound n capacity ltac:(lia)) as Hmod.
    exists self'. split.
    { unfold Float64.run, Float64.appends in *. rewrite map_app.
      destruct (Float64.__init__ capacity) as [self0|e]; simpl in *; [|discriminate].
      rewrite float_do_calls_app, Hrun. simpl. rewrite Hadd. reflexivity. }
    split; [exact Hwf'|]. split; [congruence|].
    rewrite Hn1, Hcur', Hsz', Hmax, Hcur, Hsz.
    split; [apply Zplus_mod_idemp_l|]. split; [lia|]. split.
    + intros i x Hi Hge.
      destruct (Nat.eq_dec i (length ws)) as [->|Hne].
      * rewrite list_lookup_middle in Hi by reflexivity. inversion Hi; subst x.
        fold n. rewrite <- Hcur. exact Hw.
      * assert (Hlt : (i < length ws)%nat).
        { apply lookup_lt_Some in Hi. rewrite length_app in Hi. simpl in Hi. lia. }
        rewrite lookup_app_l in Hi by assumption.
        pose proof (Z.mod_pos_bound (Z.of_nat i) capacity ltac:(lia)).
        rewrite Hframe.
        -- apply Hwin; [assumption|unfold n; lia].
        -- lia.
        -- rewrite Hcur. apply mod_window_ne. unfold n. lia.
    + intros j Hj Hor. rewrite Hframe.
      * apply Hzero; [assumption|lia].
      * assumption.
      * rewrite Hcur. destruct (Z_lt_le_dec j capacity) as [Hlt|Hge]; [|lia].
        rewrite Z.mod_small by lia. lia.
Qed.

(** ** The descent of [find] in float64 *)

Lemma float_eqb_leb (x y : float) :
  PrimFloat.eqb x y = true -> PrimFloat.leb x y = true.
Proof.
  rewrite FloatAxioms.eqb_spec, FloatAxioms.leb_spec.
  unfold SpecFloat.SFeqb, SpecFloat.SFleb.
  destruct (SpecFloat.SFcompare _ _) as [[]|]; congruence.
Qed.

Lemma SFcompare_antisym (a b : SpecFloat.spec_float) :
  SpecFloat.SFcompare b a = option_map CompOpp (SpecFloat.SFcompare a b).
Proof.
  destruct a as [sa|sa| |sa ma ea], b as [sb|sb| |sb mb eb]; simpl;
    try reflexivity; try (destruct sa; reflexivity); try (destruct sb; reflexivity);
    try (destruct sa, sb; reflexivity).
  destruct sa, sb; simpl; try reflexivity;
    rewrite (Z.compare_antisym ea eb); destruct (ea ?= eb) eqn:E; simpl; try reflexivity;
    rewrite (Pos.compare_cont_antisym ma mb Eq); simpl;
    destruct (Pos.compare_cont Eq ma mb); reflexivity.
Qed.

Lemma float_ltb_leb (x y : float) :
  PrimFloat.ltb y x = true -> PrimFloat.leb x y = false.
Proof.
  rewrite FloatAxioms.ltb_spec, FloatAxioms.leb_spec.
  unfold SpecFloat.SFltb, SpecFloat.SFleb.
  rewrite (SFcompare_antisym (FloatOps.Prim2SF x) (FloatOps.Prim2SF y)).
  destruct (SpecFloat.SFcompare _ _) as [[]|]; simpl; congruence.
Qed.

(** The descent from the node [k] of level [j], of height [h]: whatever the
    target (NaN included) it returns, with a slot below that node and the
    weight stored there. *)
Lemma float_find_descent (self : Float64.SumTree) :
  well_formed (reals self) ->
  forall (h fuel : nat) (j k : Z) (t : float),
  0 <= j -> j + Z.of_nat h = Float64.tree_depth self -> 0 <= k < 2 ^ j ->
  (h < fuel)%nat ->
  exists s,
    Float64._find_helper fuel self t (2 ^ j - 1 + k)
    = Some (Ok (s, float_leaf self s)) /\
    k * 2 ^ Z.of_nat h <= s < (k + 1) * 2 ^ Z.of_nat h.
Proof.
  intros Hwf. destruct (float_well_formed _ Hwf) as (Hd & Hts & Hn & Hp2).
  induction h as [|h IH]; intros fuel j k t Hj Hjh Hk Hfuel;
    (destruct fuel as [|fuel]; [lia|]).
  - assert (j = Float64.tree_depth self) by lia. subst j.
    change (2 ^ Z.of_nat 0) with 1. rewrite !Z.mul_1_r.
    exists k. simpl.
    destruct (Z.gtb_spec (2 * (2 ^ Float64.tree_depth self - 1 + k) + 1)
                (Float64.tree_size self - 1)); [|lia].
    rewrite float_getitem_in by lia. simpl. unfold float_leaf.
    replace (2 ^ Float64.tree_depth self - 1 + k - 2 ^ Float64.tree_depth self + 1)
      with k by lia.
    replace (k + 2 ^ Float64.tree_depth self - 1)
      with (2 ^ Float64.tree_depth self - 1 + k) by lia.
    split; [reflexivity|lia].
  - pose proof (pow2_succ j Hj) as Hj1. pose proof (pow2_pos j Hj) as Hj0.
    pose proof (pow2_le (j + 1) (Float64.tree_depth self) ltac:(lia)) as Hle.
    pose proof (pow2_pos (Z.of_nat h) ltac:(lia)) as HP.
    rewrite Nat2Z.inj_succ, Z.pow_succ_r by lia.
    set (P := 2 ^ Z.of_nat h) in *.
    replace ((k + 1) * (2 * P)) with ((2 * k + 1 + 1) * P) by ring.
    replace (k * (2 * P)) with (2 * k * P) by ring.
    simpl.
    destruct (Z.gtb_spec (2 * (2 ^ j - 1 + k) + 1) (Float64.tree_size self - 1));
      [lia|].
    rewrite float_getitem_in by lia.
    replace (2 * (2 ^ j - 1 + k) + 1) with (2 ^ (j + 1) - 1 + 2 * k) by lia.
    replace (2 * (2 ^ j - 1 + k) + 2) with (2 ^ (j + 1) - 1 + (2 * k + 1)) by lia.
    destruct (PrimFloat.leb t (float_at (Float64.value self) (2 ^ (j + 1) - 1 + 2 * k))).
    + destruct (IH fuel (j + 1) (2 * k) t ltac:(lia) ltac:(lia) ltac:(lia) ltac:(lia))
        as (s & Hs & Hrange).
      fold P in Hrange. exists s. split; [exact Hs|lia].
    + destruct (IH fuel (j + 1) (2 * k + 1)
                  (t - float_at (Float64.value self) (2 ^ (j + 1) - 1 + 2 * k))%float
                  ltac:(lia) ltac:(lia) ltac:(lia) ltac:(lia))
        as (s & Hs & Hrange).
      fold P in Hrange. exists s. split; [exact Hs|lia].
Qed.

(** * The claims on the float64 program *)

(** Every prefix of a run without rounding: the common ground of C1 and
    X3. *)
Lemma exact_prefix_sums_inv (capacity : Z) (cs : list Float64.call) (k : nat) :
  1 <= capacity ->
  Forall (float_leaf_call (Z.log2_up capacity)) cs ->
  exact_run capacity cs = true ->
  exists self t,
    Float64.run capacity (take k cs) = Ok self /\
    Forall finite (Float64.value self) /\
    well_formed (reals self) /\ Float64.max_size self = capacity /\
    sum_invariant (reals self) /\
    Float64.total self = Ok t /\ (real t == Qsum (leaves (reals self)))%Q.
Proof.
  intros Hc Hcs Hexact.
  assert (Hprefix : Forall (float_leaf_call (Z.log2_up capacity)) (take k cs))
    by (apply Forall_take; exact Hcs).
  assert (Hexact' : exact_run capacity (take k cs) = true).
  { unfold exact_run in *. destruct (Float64.__init__ capacity); [|discriminate].
    apply exact_calls_take. exact Hexact. }
  destruct (exact_run_sums_inv capacity (take k cs) Hc Hprefix Hexact')
    as (self & Hrun & Hmax & Hfin & [Hwf Hsum Htotal]).
  destruct (float_well_formed _ Hwf) as (Hd & Hts & Hn & Hp2).
  exists self, (float_at (Float64.value self) 0).
  split; [exact Hrun|]. split; [exact Hfin|]. split; [exact Hwf|].
  split; [exact Hmax|].
  split; [apply tree_inv_sum_invariant; assumption|].
  split; [apply float_getitem_in; lia|].
  rewrite <- Htotal. simpl. rewrite weight_at_reals. reflexivity.
Qed.

(** C1 (counterexample).  In float64 the sum invariant fails after valid
    calls.  On a fresh tree of capacity 2 the appends 0.1, 0.1, 0.7 (slots in
    range, weights >= 0) leave [value = [0.8, 0.7, 0.1]]: the root was
    brought to 0.8 by adding the differences 0.1, 0.1 and [0.7 - 0.1], while
    [0.7 + 0.1] is 0.7999999999999999 in float64.  So
    [weights[0] == weights[1] + weights[2]] is false, [total()] is not the
    float64 sum of the leaves, and the stored weights do not satisfy I1 as
    real numbers either. *)
Theorem float_sum_invariant_counterexample :
  exists self t,
    Forall (float_valid_call 2) (Float64.appends [0.1; 0.1; 0.7]%float) /\
    Float64.run 2 (Float64.appends [0.1; 0.1; 0.7]%float) = Ok self /\
    Float64.value self = [0.8; 0.7; 0.1]%float /\
    (float_at (Float64.value self) 0
     =? float_at (Float64.value self) 1 + float_at (Float64.value self) 2)%float
    = false /\
    (0.7 + 0.1 =? 0.7999999999999999)%float = true /\
    Float64.total self = Ok t /\
    (t =? float_leaf self 0 + float_leaf self 1)%float = false /\
    ~ sum_invariant (reals self).
Proof.
  exists (Float64.mkSumTree 2 1 3 1 2 [0.8; 0.7; 0.1]%float), 0.8%float.
  split; [repeat constructor|].
  split; [vm_compute; reflexivity|].
  split; [reflexivity|]. split; [reflexivity|]. split; [reflexivity|].
  split; [reflexivity|]. split; [reflexivity|].
  intros H. specialize (H 0 ltac:(simpl; lia)). vm_compute in H. discriminate.
Qed.

(** C1 (amended).  For every sequence of valid [update]/[append] calls on a
    fresh tree (slot in [0, capacity), weight >= 0) in which no subtraction
    [new_value - value[idx]] and no addition [value[father] += diff] of
    [update] rounds, after each call (after every prefix [take k cs] of the
    sequence) the stored weights are finite, every non-leaf index [i]
    satisfies [weights[i] == weights[2i+1] + weights[2i+2]] as an equation
    between real numbers, and [total()] is the real sum of all leaf
    weights. *)
Theorem sum_invariant_while_exact :
  forall (capacity : Z) (cs : list Float64.call) (k : nat),
  1 <= capacity ->
  Forall (float_valid_call capacity) cs ->
  exact_run capacity cs = true ->
  exists self t,
    Float64.run capacity (take k cs) = Ok self /\
    Forall finite (Float64.value self) /\
    well_formed (reals self) /\ Float64.max_size self = capacity /\
    sum_invariant (reals self) /\
    Float64.total self = Ok t /\ (real t == Qsum (leaves (reals self)))%Q.
Proof.
  intros capacity cs k Hc Hvalid Hexact.
  apply exact_prefix_sums_inv; try assumption.
  destruct (ceil_log2_spec capacity Hc) as (_ & Hle & _).
  eapply Forall_impl; [exact Hvalid|].
  intros [slot w|w] H; simpl in *; [lia|exact I].
Qed.

Lemma sum_invariant_while_exact_witness :
  exists self t,
    Float64.run 3
      (take 3 [Float64.Append 0.5; Float64.Update 2 5; Float64.Append 7.25;
               Float64.Append 0]%float) = Ok self /\
    Forall finite (Float64.value self) /\
    well_formed (reals self) /\ Float64.max_size self = 3 /\
    sum_invariant (reals self) /\
    Float64.total self = Ok t /\ (real t == Qsum (leaves (reals self)))%Q.
Proof.
  apply (sum_invariant_while_exact 3
           [Float64.Append 0.5; Float64.Update 2 5; Float64.Append 7.25;
            Float64.Append 0]%float 3).
  - lia.
  - repeat constructor; simpl; lia.
  - vm_compute. reflexivity.
Defined.

(** C6. In the downward traversal of [find], at every internal node (the
    node [k] of a level [j] above the leaves) the traversal returns a slot,
    and the comparison is left-inclusive: if the remaining target equals the
    stored weight of the left child, or is below it, the result is that of
    the left child with the target unchanged and the slot lies in the left
    half of the node's slots; only a strictly greater target (or one that
    does not compare, NaN) gives the result of the right child with the
    target less the left weight, and a slot of the right half. *)
Theorem find_descends_left_on_tie :
  forall (self : Float64.SumTree) (h fuel : nat) (j k : Z) (target : float),
  well_formed (reals self) ->
  0 <= j -> j + Z.of_nat (S h) = Float64.tree_depth self -> 0 <= k < 2 ^ j ->
  (h < fuel)%nat ->
  exists (s : Z) (left_value : float),
    Float64.getitem (Float64.value self) (2 * (2 ^ j - 1 + k) + 1) = Ok left_value /\
    Float64._find_helper (S fuel) self target (2 ^ j - 1 + k)
    = Some (Ok (s, float_leaf self s)) /\
    ((target =? left_value)%float = true ->
     Float64._find_helper fuel self target (2 * (2 ^ j - 1 + k) + 1)
     = Some (Ok (s, float_leaf self s)) /\
     2 * k * 2 ^ Z.of_nat h <= s < (2 * k + 1) * 2 ^ Z.of_nat h) /\
    ((target <=? left_value)%float = true ->
     Float64._find_helper fuel self target (2 * (2 ^ j - 1 + k) + 1)
     = Some (Ok (s, float_leaf self s)) /\
     2 * k * 2 ^ Z.of_nat h <= s < (2 * k + 1) * 2 ^ Z.of_nat h) /\
    ((left_value <? target)%float = true ->
     Float64._find_helper fuel self (target - left_value)%float
       (2 * (2 ^ j - 1 + k) + 2)
     = Some (Ok (s, float_leaf self s)) /\
     (2 * k + 1) * 2 ^ Z.of_nat h <= s < (2 * k + 2) * 2 ^ Z.of_nat h) /\
    ((target <=? left_value)%float = false ->
     Float64._find_helper fuel self (target - left_value)%float
       (2 * (2 ^ j - 1 + k) + 2)
     = Some (Ok (s, float_leaf self s)) /\
     (2 * k + 1) * 2 ^ Z.of_nat h <= s < (2 * k + 2) * 2 ^ Z.of_nat h).
Proof.
  intros self h fuel j k target Hwf Hj Hjh Hk Hfuel.
  destruct (float_well_formed _ Hwf) as (Hd & Hts & Hn & Hp2).
  pose proof (pow2_succ j Hj) as Hj1. pose proof (pow2_pos j Hj) as Hj0.
  pose proof (pow2_le (j + 1) (Float64.tree_depth self) ltac:(lia)) as Hle.
  set (index := 2 ^ j - 1 + k) in *.
  set (left_value := float_at (Float64.value self) (2 * index + 1)).
  assert (Hget : Float64.getitem (Float64.value self) (2 * index + 1) = Ok left_value)
    by (apply float_getitem_in; unfold index; lia).
  assert (Hstep : Float64._find_helper (S fuel) self target index
                  = if (target <=? left_value)%float
                    then Float64._find_helper fuel self target (2 * index + 1)
                    else Float64._find_helper fuel self (target - left_value)%float
                           (2 * index + 2)).
  { simpl. destruct (Z.gtb_spec (2 * index + 1) (Float64.tree_size self - 1));
      [unfold index in *; lia|].
    rewrite Hget. reflexivity. }
  assert (Hl : 2 * index + 1 = 2 ^ (j + 1) - 1 + 2 * k) by (unfold index; lia).
  assert (Hr : 2 * index + 2 = 2 ^ (j + 1) - 1 + (2 * k + 1)) by (unfold index; lia).
  destruct (float_find_descent self Hwf h fuel (j + 1) (2 * k) target
              ltac:(lia) ltac:(lia) ltac:(lia) Hfuel) as (sl & Hsl & Hrl).
  destruct (float_find_descent self Hwf h fuel (j + 1) (2 * k + 1)
              (target - left_value)%float
              ltac:(lia) ltac:(lia) ltac:(lia) Hfuel) as (sr & Hsr & Hrr).
  rewrite <- Hl in Hsl. rewrite <- Hr in Hsr.
  replace (2 * k + 1 + 1) with (2 * k + 2) in Hrr by lia.
  destruct (target <=? left_value)%float eqn:E.
  - exists sl, left_value. split; [exact Hget|]. split; [rewrite Hstep; exact Hsl|].
    split; [intros _; split; assumption|]. split; [intros _; split; assumption|].
    split; [intros H; apply float_ltb_leb in H; congruence|intros H; congruence].
  - exists sr, left_value. split; [exact Hget|]. split; [rewrite Hstep; exact Hsr|].
    split; [intros H; apply float_eqb_leb in H; congruence|].
    split; [intros H; congruence|]. split; intros _; split; assumption.
Qed.

Lemma find_descends_left_on_tie_witness :
  exists (s : Z) (left_value : float),
    Float64.getitem (Float64.value float_tree_1234) (2 * (2 ^ 0 - 1 + 0) + 1)
    = Ok left_value /\
    Float64._find_helper 3 float_tree_1234 3%float (2 ^ 0 - 1 + 0)
    = Some (Ok (s, float_leaf float_tree_1234 s)) /\
    ((3 =? left_value)%float = true ->
     Float64._find_helper 2 float_tree_1234 3%float (2 * (2 ^ 0 - 1 + 0) + 1)
     = Some (Ok (s, float_leaf float_tree_1234 s)) /\
     2 * 0 * 2 ^ Z.of_nat 1 <= s < (2 * 0 + 1) * 2 ^ Z.of_nat 1) /\
    ((3 <=? left_value)%float = true ->
     Float64._find_helper 2 float_tree_1234 3%float (2 * (2 ^ 0 - 1 + 0) + 1)
     = Some (Ok (s, float_leaf float_tree_1234 s)) /\
     2 * 0 * 2 ^ Z.of_nat 1 <= s < (2 * 0 + 1) * 2 ^ Z.of_nat 1) /\
    ((left_value <? 3)%float = true ->
     Float64._find_helper 2 float_tree_1234 (3 - left_value)%float
       (2 * (2 ^ 0 - 1 + 0) + 2)
     = Some (Ok (s, float_leaf float_tree_1234 s)) /\
     (2 * 0 + 1) * 2 ^ Z.of_nat 1 <= s < (2 * 0 + 2) * 2 ^ Z.of_nat 1) /\
    ((3 <=? left_value)%float = false ->
     Float64._find_helper 2 float_tree_1234 (3 - left_value)%float
       (2 * (2 ^ 0 - 1 + 0) + 2)
     = Some (Ok (s, float_leaf float_tree_1234 s)) /\
     (2 * 0 + 1) * 2 ^ Z.of_nat 1 <= s < (2 * 0 + 2) * 2 ^ Z.of_nat 1).
Proof.
  apply (find_descends_left_on_tie float_tree_1234 1 2 0 0 3%float).
  - constructor; simpl; lia.
  - lia.
  - reflexivity.
  - simpl. lia.
  - lia.
Defined.

(** * Further properties of the float64 program *)

(** X3. I1 and the meaning of [total()] depend neither on the sign of the
    weights nor on the slot being below the capacity.  For every sequence of
    calls on a fresh tree whose [update] slots lie in the padded range
    [0, 2^depth), with weights of any sign, in which no subtraction and no
    addition of [update] rounds: no call raises, and after each call the
    stored weights are finite, satisfy I1 as real numbers, and [total()] is
    the real sum of all leaves, padding included. *)
Theorem sum_invariant_any_weight :
  forall (capacity : Z) (cs : list Float64.call) (k : nat),
  1 <= capacity ->
  Forall (float_leaf_call (Z.log2_up capacity)) cs ->
  exact_run capacity cs = true ->
  exists self t,
    Float64.run capacity (take k cs) = Ok self /\
    Forall finite (Float64.value self) /\
    well_formed (reals self) /\ Float64.max_size self = capacity /\
    sum_invariant (reals self) /\
    Float64.total self = Ok t /\ (real t == Qsum (leaves (reals self)))%Q.
Proof.
  intros capacity cs k Hc Hcs Hexact. apply exact_prefix_sums_inv; assumption.
Qed.

Lemma sum_invariant_any_weight_witness :
  exists self t,
    Float64.run 3
      (take 3 [Float64.Append (-1.5); Float64.Update 3 2; Float64.Append 0.25;
               Float64.Update 0 (-4)]%float) = Ok self /\
    Forall finite (Float64.value self) /\
    well_formed (reals self) /\ Float64.max_size self = 3 /\
    sum_invariant (reals self) /\
    Float64.total self = Ok t /\ (real t == Qsum (leaves (reals self)))%Q.
Proof.
  apply (sum_invariant_any_weight 3
           [Float64.Append (-1.5); Float64.Update 3 2; Float64.Append 0.25;
            Float64.Update 0 (-4)]%float 3).
  - lia.
  - repeat constructor; simpl; lia.
  - vm_compute. reflexivity.
Defined.

(** X6. Ring-buffer eviction.  After the appends [ws] on a fresh tree, with
    float64 weights of any kind, no call has raised, the cursor is
    [len(ws) % capacity], the size [min(len(ws), capacity)], each of the last
    [capacity] weights sits, as it was passed, in the slot given by its
    position modulo the capacity, and every slot not yet reached and every
    padding slot holds 0. *)
Theorem appends_keep_last_capacity :
  forall (capacity : Z) (ws : list float),
  1 <= capacity ->
  exists self,
    Float64.run capacity (Float64.appends ws) = Ok self /\
    Float64.curr self = Z.of_nat (length ws) mod capacity /\
    Float64.size self = Z.min (Z.of_nat (length ws)) capacity /\
    (forall (i : nat) (x : float),
       ws !! i = Some x -> Z.of_nat (length ws) - capacity <= Z.of_nat i ->
       float_leaf self (Z.of_nat i mod capacity) = x) /\
    (forall j, 0 <= j -> capacity <= j \/ Z.of_nat (length ws) <= j ->
       float_leaf self j = 0%float).
Proof.
  intros capacity ws Hc.
  destruct (float_appends_state capacity Hc ws)
    as (self & Hrun & _ & _ & Hcur & Hsz & Hwin & Hzero).
  exists self. auto.
Qed.

Lemma appends_keep_last_capacity_witness :
  exists self,
    Float64.run 3 (Float64.appends [0.1; 0.2; 0.3; 0.4; 0.5]%float) = Ok self /\
    Float64.curr self = Z.of_nat (length [0.1; 0.2; 0.3; 0.4; 0.5]%float) mod 3 /\
    Float64.size self = Z.min (Z.of_nat (length [0.1; 0.2; 0.3; 0.4; 0.5]%float)) 3 /\
    (forall (i : nat) (x : float),
       [0.1; 0.2; 0.3; 0.4; 0.5]%float !! i = Some x ->
       Z.of_nat (length [0.1; 0.2; 0.3; 0.4; 0.5]%float) - 3 <= Z.of_nat i ->
       float_leaf self (Z.of_nat i mod 3) = x) /\
    (forall j, 0 <= j ->
       3 <= j \/ Z.of_nat (length [0.1; 0.2; 0.3; 0.4; 0.5]%float) <= j ->
       float_leaf self j = 0%float).
Proof.
  apply (appends_keep_last_capacity 3 [0.1; 0.2; 0.3; 0.4; 0.5]%float). lia.
Defined.

(** X18. [find] in float64 always returns.  On a well-formed tree, for every
    float64 target (infinities and NaN included), normalised or not, [find]
    returns, without raising, a slot of the padded range [0, 2^depth). *)
Theorem float_find_returns_padded_slot :
  forall (self : Float64.SumTree) (target : float) (normalize : bool) (fuel : nat),
  well_formed (reals self) ->
  Float64.tree_depth self < Z.of_nat fuel ->
  exists s,
    Float64.find fuel self target normalize = Some (Ok s) /\
    0 <= s < 2 ^ Float64.tree_depth self.
Proof.
  intros self target normalize fuel Hwf Hfuel.
  destruct (float_well_formed _ Hwf) as (Hd & Hts & Hn & Hp2).
  assert (Hdescent : forall t, exists s,
            Float64._find_helper fuel self t 0 = Some (Ok (s, float_leaf self s)) /\
            0 <= s < 2 ^ Float64.tree_depth self).
  { intros t.
    destruct (float_find_descent self Hwf (Z.to_nat (Float64.tree_depth self)) fuel
                0 0 t ltac:(lia) ltac:(lia) ltac:(simpl; lia) ltac:(lia))
      as (s & Hs & Hrange).
    rewrite Z2Nat.id in Hrange by lia. exists s. split; [exact Hs|lia]. }
  unfold Float64.find. destruct normalize.
  - rewrite float_getitem_in by lia. simpl.
    destruct (Hdescent (target * float_at (Float64.value self) 0)%float)
      as (s & Hs & Hrange).
    rewrite Hs. exists s. split; [reflexivity|exact Hrange].
  - destruct (Hdescent target) as (s & Hs & Hrange).
    rewrite Hs. exists s. split; [reflexivity|exact Hrange].
Qed.

Lemma float_find_returns_padded_slot_witness :
  exists s,
    Float64.find 3 float_tree_1234 0.35%float true = Some (Ok s) /\
    0 <= s < 2 ^ Float64.tree_depth float_tree_1234.
Proof.
  apply (float_find_returns_padded_slot float_tree_1234 0.35%float true 3).
  - constructor; simpl; lia.
  - simpl. lia.
Defined.

(** X19. Rounding can send [find] to a padding slot.  On a fresh tree of
    capacity 3 the appends 0.1, 0.1, 0.1 give [total()]
    0.30000000000000004, the leaves 0.1, 0.1, 0.1, 0 and the left half 0.2.
    [find(1.0)] multiplies the target by the total, descends right with
    [0.30000000000000004 - 0.2], which is 0.10000000000000003 and above the
    0.1 of slot 2, and returns slot 3: a slot that is not below the capacity,
    was never written and holds weight 0. *)
Theorem find_reaches_padding_by_rounding :
  exists self,
    Float64.run 3 (Float64.appends [0.1; 0.1; 0.1]%float) = Ok self /\
    Float64.value self
    = [0.30000000000000004; 0.2; 0.1; 0.1; 0.1; 0.1; 0]%float /\
    Float64.max_size self = 3 /\
    (0.30000000000000004 - 0.2 =? 0.10000000000000003)%float = true /\
    Float64.find 3 self 1%float true = Some (Ok 3) /\
    Float64.find 3 self 0.30000000000000004%float false = Some (Ok 3) /\
    float_leaf self 3 = 0%float.
Proof.
  exists (Float64.mkSumTree 3 2 7 0 3
            [0.30000000000000004; 0.2; 0.1; 0.1; 0.1; 0.1; 0]%float).
  split; [vm_compute; reflexivity|].
  repeat split; vm_compute; reflexivity.
Qed.

Lemma find_reaches_padding_by_rounding_witness :
  exists self,
    Float64.run 3 (Float64.appends [0.1; 0.1; 0.1]%float) = Ok self /\
    Float64.value self
    = [0.30000000000000004; 0.2; 0.1; 0.1; 0.1; 0.1; 0]%float /\
    Float64.max_size self = 3 /\
    (0.30000000000000004 - 0.2 =? 0.10000000000000003)%float = true /\
    Float64.find 3 self 1%float true = Some (Ok 3) /\
    Float64.find 3 self 0.30000000000000004%float false = Some (Ok 3) /\
    float_leaf self 3 = 0%float.
Proof.
  exact find_reaches_padding_by_rounding.
Defined.
